(** * Conversation state, artifact extraction and artifact search

    A shallow embedding of the conversation harness of
    [enhanced-claude-notebook.py], of [AnthropicClient.send_message]
    ([src/api/anthropic_client.py]) and of
    [FirestoreClient.search_artifacts_by_content] and the saving and
    reading functions of [FirestoreClient]
    ([src/storage/firestore_client.py]), with the properties of the
    specification stated and settled against that code, followed by
    further properties read off the code.

    Conventions of the embedding.
    - A Python [str] is a Rocq [string]; a character is one of the code
      points 0..255, and the character classes ([isspace], [isalnum],
      [isprintable]) and [lower] are Python's on that range, where
      [lower] gives one character for each character.  (Beyond that
      range [str.lower] can lengthen a text: it makes two characters of
      U+0130.)
    - The module-level dict [conversation_state], the standard output and
      the file system form the [world] that every function threads; a
      raised exception is the [inl] of the result, and the world at that
      point is kept (Python does not roll back mutations).
    - The hosted model and the clock are outside the program: each call
      of [ask_claude] receives the behaviour of the SDK call
      ([messages.create]) and the clock reading as arguments.
    - The file system is a POSIX one, case-sensitive and without links,
      seen from the current directory: a finite map from the paths of
      its entries to nodes, each path written in normal form relative
      to the current directory (names joined by single slashes; no
      empty name, no [.] and no [..]; see [relative_path] and
      [disk_ok]).  A file node holds the text that reading the file in
      text mode gives; every file is a readable text file.  On a path
      in normal form [os.path.exists] is key presence and
      [open(.., 'r')] a lookup, and [os.makedirs] and [open(.., 'w')]
      raise what the system raises for a path that is empty, holds the
      character 0, is a directory or lies below a file or a missing
      directory; the statements about creating and writing are made for
      paths in normal form.  What else makes the operating system
      refuse to create or write a path (permissions, a name that is too
      long, a full or read-only device) is outside the program: the
      functions that write receive it as the argument [refuses]. *)

From Stdlib Require Import ZArith NArith Ascii.
From stdpp Require Import gmap strings pretty list sorting.

(** ** Text *)

Module Str.

Definition ord (c : ascii) : N := N_of_ascii c.

(** [str.isspace] on one character, which is also the class [\s] of
    [re] on [str] patterns and the set removed by [str.strip()]. *)
Definition isspace (c : ascii) : bool :=
  let n := ord c in
  ((9 <=? n) && (n <=? 13) || (28 <=? n) && (n <=? 32)
   || (n =? 133) || (n =? 160))%N.

(** [str.isalnum] on one character. *)
Definition isalnum (c : ascii) : bool :=
  let n := ord c in
  ((48 <=? n) && (n <=? 57) || (65 <=? n) && (n <=? 90)
   || (97 <=? n) && (n <=? 122)
   || (n =? 170) || (n =? 178) || (n =? 179) || (n =? 181)
   || (n =? 185) || (n =? 186) || (188 <=? n) && (n <=? 190)
   || (192 <=? n) && (n <=? 214) || (216 <=? n) && (n <=? 246)
   || (248 <=? n))%N.

(** [str.lower] on one character. *)
Definition lower_char (c : ascii) : ascii :=
  let n := ord c in
  if ((65 <=? n) && (n <=? 90) || (192 <=? n) && (n <=? 214)
      || (216 <=? n) && (n <=? 222))%N
  then ascii_of_N (n + 32) else c.

Fixpoint map_chars (f : ascii → ascii) (s : string) : string :=
  match s with
  | EmptyString => EmptyString
  | String c s' => String (f c) (map_chars f s')
  end.

Definition lower : string → string := map_chars lower_char.

(** [s.replace(a, b)] for one-character [a] and [b]. *)
Definition replace_char (a b : ascii) : string → string :=
  map_chars (λ c, if decide (c = a) then b else c).

(** [s.startswith(p)]. *)
Fixpoint startswith (s p : string) : bool :=
  match p, s with
  | EmptyString, _ => true
  | String _ _, EmptyString => false
  | String a p', String b s' => bool_decide (a = b) && startswith s' p'
  end.

(** [t in s]: [t] occurs in [s] as a contiguous substring. *)
Fixpoint contains (s t : string) : bool :=
  startswith s t ||
  match s with
  | EmptyString => false
  | String _ s' => contains s' t
  end.

Fixpoint drop (n : nat) (s : string) : string :=
  match n, s with
  | S n', String _ s' => drop n' s'
  | _, _ => s
  end.

(** [s[:n]]. *)
Fixpoint take (n : nat) (s : string) : string :=
  match n, s with
  | S n', String c s' => String c (take n' s')
  | _, _ => EmptyString
  end.

(** [s.endswith(c)] for one character [c]. *)
Fixpoint endswith_char (s : string) (c : ascii) : bool :=
  match s with
  | EmptyString => false
  | String a EmptyString => bool_decide (a = c)
  | String _ s' => endswith_char s' c
  end.

Fixpoint lstrip (s : string) : string :=
  match s with
  | String c s' => if isspace c then lstrip s' else s
  | EmptyString => EmptyString
  end.

Fixpoint rstrip (s : string) : string :=
  match s with
  | EmptyString => EmptyString
  | String c s' =>
      match rstrip s' with
      | EmptyString => if isspace c then EmptyString else String c EmptyString
      | r => String c r
      end
  end.

(** [s.strip()]. *)
Definition strip (s : string) : string := rstrip (lstrip s).

Fixpoint concat (l : list string) : string :=
  match l with
  | [] => EmptyString
  | s :: l' => s +:+ concat l'
  end.

(** [len(s.split())]: the number of maximal runs of non-space
    characters. *)
Fixpoint count_words_go (in_word : bool) (s : string) : nat :=
  match s with
  | EmptyString => 0
  | String c s' =>
      if isspace c then count_words_go false s'
      else (if in_word then 0 else 1) + count_words_go true s'
  end.
Definition count_words : string → nat := count_words_go false.

(** The relation that [contains] decides. *)
Definition substr (t s : string) : Prop := ∃ l r, s = l +:+ t +:+ r.

(** [s[:n]] for an integer [n]: a negative [n] counts from the end. *)
Definition slice_to (n : Z) (s : string) : string :=
  if bool_decide (0 ≤ n)%Z then take (Z.to_nat n) s
  else take (Z.to_nat (Z.of_nat (String.length s) + n)) s.

(** What reading in text mode makes of the line ends: CR LF and a lone
    CR become LF.  [after_cr] says that the character before was CR. *)
Fixpoint universal_newlines_go (after_cr : bool) (s : string) : string :=
  match s with
  | EmptyString => EmptyString
  | String c s' =>
      if bool_decide (c = "013"%char)
      then String "010"%char (universal_newlines_go true s')
      else if bool_decide (c = "010"%char) && after_cr
           then universal_newlines_go false s'
           else String c (universal_newlines_go false s')
  end.
Definition universal_newlines : string → string :=
  universal_newlines_go false.

(** [str.isprintable] on one character. *)
Definition isprintable (c : ascii) : bool :=
  let n := ord c in
  ((32 <=? n) && (n <=? 126) || (161 <=? n) && negb (n =? 173))%N.

Definition hex_digit (n : N) : ascii :=
  if (n <? 10)%N then ascii_of_N (48 + n) else ascii_of_N (87 + n).

(** One character inside [repr(s)], between quotes [quote]. *)
Definition repr_char (quote c : ascii) : string :=
  let n := ord c in
  if bool_decide (c = quote ∨ c = "092"%char)
  then String "092"%char (String c EmptyString)
  else if (n =? 9)%N then String "092"%char "t"
  else if (n =? 10)%N then String "092"%char "n"
  else if (n =? 13)%N then String "092"%char "r"
  else if isprintable c then String c EmptyString
  else String "092"%char
         (String "x"%char
            (String (hex_digit (n / 16))
               (String (hex_digit (n mod 16)) EmptyString))).

Fixpoint repr_chars (quote : ascii) (s : string) : string :=
  match s with
  | EmptyString => EmptyString
  | String c s' => repr_char quote c +:+ repr_chars quote s'
  end.

(** [repr(s)]: double quotes are chosen when [s] holds a single quote
    and no double quote. *)
Definition repr (s : string) : string :=
  let quote :=
    if contains s "'" && negb (contains s (String "034"%char EmptyString))
    then "034"%char else "'"%char in
  String quote (repr_chars quote s +:+ String quote EmptyString).

End Str.

Definition LF : string := String "010"%char EmptyString.
Definition DQUOTE : string := String "034"%char EmptyString.
Definition NUL : string := String "000"%char EmptyString.

(** ** Data model *)

(** One entry of [conversation_state["messages"]]. *)
Record message := Message { role : string; content : string }.

(** The module-level dict [conversation_state]. *)
Record state := State {
  messages : list message;
  summary : string;
  shared_files : list string;
  last_updated : string
}.

(** One content block of an API response, and the response object. *)
Record block := Block { block_type : string; block_text : string }.
Record response := Response {
  response_id : string;
  response_model : string;
  response_content : list block
}.

(** The dict that [ask_claude] returns. *)
Record reply := Reply {
  message_id : string;
  model : string;
  reply_content : string;
  tokens_used : nat
}.

(** An artifact dict of [extract_markdown]; the key [heading] is present
    only on sections. *)
Record artifact := Artifact {
  a_type : string;
  a_heading : option string;
  a_content : string;
  a_index : nat
}.

(** An entry of the file system: a directory, or a file with the text
    that reading it in text mode gives (decoded, with CR LF and CR read
    as LF). *)
Inductive node := Dir | File (data : string).

Inductive exn :=
| APIError (msg : string)
| FileNotFoundError (path : string)
| IsADirectoryError (path : string)
| JSONDecodeError (msg : string)
| AttributeError (msg : string)
| FuelExhausted
| NotADirectoryError (path : string)
| FileExistsError (path : string)
| TypeError (msg : string)
| ValueError (msg : string)
| OSError (msg : string).

(** [str(e)]; the errors of the file system show the path as [repr]
    writes it. *)
Definition exn_str (e : exn) : string :=
  match e with
  | APIError msg | JSONDecodeError msg | AttributeError msg
  | TypeError msg | ValueError msg | OSError msg => msg
  | FileNotFoundError path =>
      "[Errno 2] No such file or directory: " +:+ Str.repr path
  | IsADirectoryError path => "[Errno 21] Is a directory: " +:+ Str.repr path
  | NotADirectoryError path =>
      "[Errno 20] Not a directory: " +:+ Str.repr path
  | FileExistsError path => "[Errno 17] File exists: " +:+ Str.repr path
  | FuelExhausted => EmptyString
  end.

Record world := World {
  conversation_state : state;
  stdout : list string;
  fs : gmap string node
}.

(** The initial value of [conversation_state] (Cell 2). *)
Definition empty_state (now : string) : state :=
  {| messages := []; summary := EmptyString; shared_files := [];
     last_updated := now |}.

(** ** Computations over the world that may raise *)

Definition M (A : Type) : Type := world → (exn + A) * world.

Global Instance M_ret : MRet M := λ A a w, (inr a, w).
Global Instance M_bind : MBind M := λ A B f m w,
  match m w with
  | (inl e, w') => (inl e, w')
  | (inr a, w') => f a w'
  end.

Definition raise {A} (e : exn) : M A := λ w, (inl e, w).
Definition get_state : M state := λ w, (inr (conversation_state w), w).
Definition put_state (st : state) : M unit := λ w,
  (inr (), {| conversation_state := st; stdout := stdout w; fs := fs w |}).
Definition modify_state (f : state → state) : M unit :=
  st ← get_state; put_state (f st).
Definition print (line : string) : M unit := λ w,
  (inr (), {| conversation_state := conversation_state w;
              stdout := stdout w ++ [line]; fs := fs w |}).
Definition get_fs : M (gmap string node) := λ w, (inr (fs w), w).
Definition put_fs (d : gmap string node) : M unit := λ w,
  (inr (), {| conversation_state := conversation_state w;
              stdout := stdout w; fs := d |}).

(** [conversation_state["messages"].append(msg)]. *)
Definition append_message (msg : message) (st : state) : state :=
  {| messages := messages st ++ [msg]; summary := summary st;
     shared_files := shared_files st; last_updated := last_updated st |}.
Definition set_last_updated (now : string) (st : state) : state :=
  {| messages := messages st; summary := summary st;
     shared_files := shared_files st; last_updated := now |}.
Definition set_summary (s : string) (st : state) : state :=
  {| messages := messages st; summary := s;
     shared_files := shared_files st; last_updated := last_updated st |}.
Definition set_shared_files (l : list string) (st : state) : state :=
  {| messages := messages st; summary := summary st;
     shared_files := l; last_updated := last_updated st |}.

(** ** [AnthropicClient.send_message] *)

(** The behaviour of [self.client.messages.create] at one call, as a
    function of the prompt and of [max_tokens]. *)
Definition sdk_call : Type := string → Z → exn + response.

Definition send_message (create : sdk_call) (prompt : string)
    (max_tokens : Z) : M response :=
  match create prompt max_tokens with
  | inr message => mret message
  | inl e =>
      print ("Error sending message to Claude: " +:+ exn_str e);;
      raise e
  end.

(** ** [ask_claude] *)

(** The line that the history loop adds for one message. *)
Definition render_message (msg : message) : string :=
  (if bool_decide (role msg = "user") then "Human" else "Assistant")
  +:+ ": " +:+ content msg +:+ LF +:+ LF.

(** [range(a, b)] for a start that is not negative. *)
Definition range (a b : nat) : list nat := seq a (b - a).

(** Lines 44 to 63: the prompt that is sent. *)
Definition full_prompt_of (st : state) (prompt : string)
    (include_history include_summary : bool) : string :=
  let full_prompt := EmptyString in
  let full_prompt :=
    if include_summary && negb (bool_decide (summary st = EmptyString))
    then full_prompt +:+ "# Previous Conversation Summary" +:+ LF
         +:+ summary st +:+ LF +:+ LF
    else full_prompt in
  let full_prompt :=
    if include_history && negb (bool_decide (messages st = []))
    then
      let full_prompt := full_prompt +:+ "# Previous Messages" +:+ LF in
      let n := length (messages st) in
      let full_prompt :=
        fold_left
          (λ full_prompt i,
             match messages st !! i with
             | Some msg => full_prompt +:+ render_message msg
             | None => full_prompt
             end)
          (range (Z.to_nat (Z.max 0 (Z.of_nat n - 6))) n)
          full_prompt in
      full_prompt +:+ "# New Question" +:+ LF
    else full_prompt in
  full_prompt +:+ prompt.

(** Lines 70 to 74: the concatenated text blocks of a response. *)
Definition text_content_of (r : response) : string :=
  fold_left
    (λ text_content b,
       if bool_decide (block_type b = "text")
       then text_content +:+ block_text b else text_content)
    (response_content r) EmptyString.

(** [ask_claude(prompt, include_history=True, include_summary=True,
    max_tokens=1000)]; callers here pass every argument.  [create] is
    what the SDK does at this call and [now] what
    [datetime.now().isoformat()] returns after the two appends. *)
Definition ask_claude (create : sdk_call) (now : string) (prompt : string)
    (include_history include_summary : bool) (max_tokens : Z) : M reply :=
  st ← get_state;
  let full_prompt :=
    full_prompt_of st prompt include_history include_summary in
  print ("Sending to Claude (with"
         +:+ (if negb include_history then "out" else EmptyString)
         +:+ " history, with"
         +:+ (if negb include_summary then "out" else EmptyString)
         +:+ " summary)");;
  response ← send_message create full_prompt max_tokens;
  let text_content := text_content_of response in
  modify_state (append_message {| role := "user"; content := prompt |});;
  modify_state
    (append_message {| role := "assistant"; content := text_content |});;
  modify_state (set_last_updated now);;
  mret {| message_id := response_id response;
          model := response_model response;
          reply_content := text_content;
          tokens_used := Str.count_words full_prompt / 3 |}.

(** ** File helpers and [share_files_with_claude] *)

(** The path of the directory that holds the entry [path]: what stands
    before the last slash, and the empty text, for the current
    directory, when there is no slash. *)
Fixpoint parent_path (path : string) : string :=
  match path with
  | EmptyString => EmptyString
  | String c path' =>
      if Str.contains path' "/" then String c (parent_path path')
      else EmptyString
  end.

(** The node of that directory; the current directory exists. *)
Definition parent_node (d : gmap string node) (path : string)
    : option node :=
  if bool_decide (parent_path path = EmptyString) then Some Dir
  else d !! parent_path path.

(** An absent path lies below a regular file: the nearest path above
    it that is on disk is a file.  The recursion is on the path of the
    directory above, which is shorter. *)
Fixpoint below_file_go (fuel : nat) (d : gmap string node) (path : string)
    : bool :=
  match fuel with
  | 0 => false
  | S fuel' =>
      let head := parent_path path in
      if bool_decide (head = EmptyString) then false
      else match d !! head with
           | Some (File _) => true
           | Some Dir => false
           | None => below_file_go fuel' d head
           end
  end.
Definition below_file (d : gmap string node) (path : string) : bool :=
  below_file_go (String.length path) d path.

(** The error of the operating system for a path that is not on disk:
    [ValueError] for a path that holds the character 0,
    [NotADirectoryError] for a path below a regular file, and
    [FileNotFoundError] for a path that is missing. *)
Definition absent_error (d : gmap string node) (path : string) : exn :=
  if Str.contains path NUL then ValueError "embedded null byte"
  else if below_file d path then NotADirectoryError path
  else FileNotFoundError path.

(** [with open(path, 'r') as f: f.read()]: the text of the file, which
    the node holds as the text mode gives it. *)
Definition open_read (path : string) : M string :=
  d ← get_fs;
  match d !! path with
  | Some (File data) => mret data
  | Some Dir => raise (IsADirectoryError path)
  | None => raise (absent_error d path)
  end.

(** [try: m except ...: h e], where [h e = None] when no clause matches
    [e] and the exception goes on to the caller. *)
Definition try_except {A} (m : M A) (h : exn → option (M A)) : M A := λ w,
  match m w with
  | (inr a, w') => (inr a, w')
  | (inl e, w') =>
      match h e with
      | Some handler => handler w'
      | None => (inl e, w')
      end
  end.

Definition read_file_content (file_path : string) : M string :=
  try_except (open_read file_path)
    (λ e, Some (mret ("Error reading file: " +:+ exn_str e))).

(** [max_length] is [None] or an integer; [0] is as false as [None], and
    a negative length is below every [len(content)] and cuts from the
    end. *)
Definition include_file_in_prompt (file_path : string)
    (max_length : option Z) : M string :=
  content ← read_file_content file_path;
  let content :=
    match max_length with
    | Some n =>
        if bool_decide (n ≠ 0 ∧ n < Z.of_nat (String.length content))%Z
        then Str.slice_to n content +:+ LF +:+ "...(truncated)..."
        else content
    | None => content
    end in
  mret (LF +:+ "<file path=" +:+ DQUOTE +:+ file_path +:+ DQUOTE +:+ ">"
        +:+ LF +:+ "```" +:+ LF +:+ content +:+ LF +:+ "```" +:+ LF
        +:+ "</file>" +:+ LF).

(** Lines 214 and 215: the ledger of shared files after [file_path] was
    shared. *)
Definition track_shared_file (file_path : string)
    (shared : list string) : list string :=
  if bool_decide (file_path ∈ shared) then shared
  else shared ++ [file_path].

Fixpoint share_files_loop (file_paths : list string)
    (prompt : string) : M string :=
  match file_paths with
  | [] => mret prompt
  | file_path :: rest =>
      formatted ← include_file_in_prompt file_path None;
      modify_state
        (λ st, set_shared_files
                 (track_shared_file file_path (shared_files st)) st);;
      share_files_loop rest (prompt +:+ formatted)
  end.

Definition share_files_with_claude (create : sdk_call) (now : string)
    (file_paths : list string) (prompt_prefix prompt_suffix : string)
    : M reply :=
  prompt ← share_files_loop file_paths (prompt_prefix +:+ LF +:+ LF);
  ask_claude create now (prompt +:+ LF +:+ prompt_suffix) true true 1000.

(** ** Summary and state file *)

Definition summary_prompt_of (recent_convo : string) : string :=
  LF
  +:+ "Please provide a concise summary of our conversation so far. Focus on:"
  +:+ LF +:+ "1. The main project goal (Claude Artifacts Automation)"
  +:+ LF +:+ "2. Current progress and implementation details"
  +:+ LF +:+ "3. Key decisions made"
  +:+ LF +:+ "4. Current issues or questions being addressed"
  +:+ LF +:+ LF +:+ "Here's the conversation to summarize:"
  +:+ LF +:+ LF +:+ recent_convo +:+ LF.

Definition generate_conversation_summary (create : sdk_call)
    (now : string) : M (option string) :=
  st ← get_state;
  if bool_decide (length (messages st) < 2) then
    print "Not enough conversation to summarize.";;
    mret None
  else
    let recent_convo :=
      fold_left (λ recent_convo msg, recent_convo +:+ render_message msg)
        (messages st) EmptyString in
    let summary_prompt := summary_prompt_of recent_convo in
    response ← ask_claude create now summary_prompt false false 1000;
    modify_state (set_summary (reply_content response));;
    print "Conversation summary updated.";;
    mret (Some (reply_content response)).

(** [load_conversation_state]; [json_load] is the decoder [json.load]
    on the text of the file. *)
Definition load_conversation_state (json_load : string → exn + state)
    (filename : string) : M unit :=
  try_except
    (data ← open_read filename;
     match json_load data with
     | inr st =>
         put_state st;;
         print ("Conversation state loaded from " +:+ filename)
     | inl e => raise e
     end)
    (λ e, match e with
          | FileNotFoundError _ =>
              Some (print ("File " +:+ filename
                           +:+ " not found. Using empty conversation state."))
          | _ => None
          end).

(** ** [extract_markdown] *)

Definition FENCE : string := "```".

(** The text before and after the first fence in [s]. *)
Fixpoint split_at_fence (s : string) : option (string * string) :=
  if Str.startswith s FENCE then Some (EmptyString, Str.drop 3 s)
  else
    match s with
    | EmptyString => None
    | String c s' =>
        match split_at_fence s' with
        | Some (g, rest) => Some (String c g, rest)
        | None => None
        end
    end.

(** One match of [```(?:markdown)?\s*([\s\S]*?)```] at the head of [s]:
    the group and the text after the match.  The optional tag and [\s*]
    are greedy and the group is lazy, so the group runs from the first
    non-space character after the tag to the next fence; giving back a
    tag or a space never uncovers a fence, so nothing else is tried. *)
Definition match_code_at (s : string) : option (string * string) :=
  if Str.startswith s FENCE then
    let r := Str.drop 3 s in
    let r := if Str.startswith r "markdown" then Str.drop 8 r else r in
    split_at_fence (Str.lstrip r)
  else None.

(** [re.findall] of that pattern: matches from left to right, each
    search resuming where the last match ended. *)
Fixpoint findall_code_go (fuel : nat) (s : string) : list string :=
  match fuel with
  | 0 => []
  | S fuel' =>
      match match_code_at s with
      | Some (g, rest) => g :: findall_code_go fuel' rest
      | None =>
          match s with
          | EmptyString => []
          | String _ s' => findall_code_go fuel' s'
          end
      end
  end.
Definition findall_code (s : string) : list string :=
  findall_code_go (S (String.length s)) s.

(** [(.*?)(?:\n|$)]: the text up to the first line feed, and the rest
    from that line feed on. *)
Fixpoint take_line (s : string) : string * string :=
  match s with
  | EmptyString => (EmptyString, EmptyString)
  | String c s' =>
      if bool_decide (c = "010"%char) then (EmptyString, s)
      else let '(l, r) := take_line s' in (String c l, r)
  end.

(** [([\s\S]*?)(?=(?:\n# |$))]: the shortest text after which the next
    heading starts or the string ends, [$] holding at the end and before
    a final line feed. *)
Fixpoint scan_body (s : string) : string * string :=
  if Str.startswith s (LF +:+ "# ") || bool_decide (s = LF)
  then (EmptyString, s)
  else
    match s with
    | EmptyString => (EmptyString, EmptyString)
    | String c s' => let '(b, r) := scan_body s' in (String c b, r)
    end.

(** One match of [(?:^|\n)# (.*?)(?:\n|$)([\s\S]*?)(?=(?:\n# |$))] at the
    head of [s]: both groups and the text after the match.  There is no
    MULTILINE flag, so [^] holds only where the whole text starts. *)
Definition match_heading_at (at_start : bool) (s : string)
    : option (string * string * string) :=
  let after :=
    if at_start && Str.startswith s "# " then Some (Str.drop 2 s)
    else if Str.startswith s (LF +:+ "# ") then Some (Str.drop 3 s)
    else None in
  match after with
  | None => None
  | Some a =>
      let '(heading, r) := take_line a in
      match r with
      | EmptyString => Some (heading, EmptyString, EmptyString)
      | String _ r' =>
          let '(body, rest) := scan_body r' in Some (heading, body, rest)
      end
  end.

Fixpoint findall_heading_go (fuel : nat) (at_start : bool) (s : string)
    : list (string * string) :=
  match fuel with
  | 0 => []
  | S fuel' =>
      match match_heading_at at_start s with
      | Some (heading, body, rest) =>
          (heading, body) :: findall_heading_go fuel' false rest
      | None =>
          match s with
          | EmptyString => []
          | String _ s' => findall_heading_go fuel' false s'
          end
      end
  end.
Definition findall_heading (s : string) : list (string * string) :=
  findall_heading_go (S (String.length s)) true s.

(** [enumerate(l)]. *)
Fixpoint enumerate_from {A} (i : nat) (l : list A) : list (nat * A) :=
  match l with
  | [] => []
  | x :: l' => (i, x) :: enumerate_from (S i) l'
  end.
Definition enumerate {A} (l : list A) : list (nat * A) := enumerate_from 0 l.

Definition code_block_artifact (ib : nat * string) : artifact :=
  {| a_type := "markdown_code_block"; a_heading := None;
     a_content := Str.strip ib.2; a_index := ib.1 |}.

Definition section_artifact (ihc : nat * (string * string)) : artifact :=
  {| a_type := "markdown_section";
     a_heading := Some (Str.strip ihc.2.1);
     a_content := "# " +:+ Str.strip ihc.2.1 +:+ LF +:+ LF
                  +:+ Str.strip ihc.2.2;
     a_index := ihc.1 |}.

Definition extract_markdown (response_text : string) : list artifact :=
  let code_blocks := findall_code response_text in
  let heading_blocks := findall_heading response_text in
  let artifacts := [] in
  let artifacts :=
    fold_left (λ artifacts ib, artifacts ++ [code_block_artifact ib])
      (enumerate code_blocks) artifacts in
  let artifacts :=
    fold_left
      (λ artifacts ihc,
         if negb (existsb (λ block, Str.contains block (Str.strip ihc.2.2))
                    code_blocks)
         then artifacts ++ [section_artifact ihc]
         else artifacts)
      (enumerate heading_blocks) artifacts in
  artifacts.

(** ** [save_artifact] *)

(** [os.path.join(a, b)] on POSIX. *)
Definition os_path_join (a b : string) : string :=
  if Str.startswith b "/" then b
  else if bool_decide (a = EmptyString) || Str.endswith_char a "/"%char
       then a +:+ b
       else a +:+ "/" +:+ b.

(** The names between the slashes of a path: [path.split("/")]. *)
Fixpoint components (path : string) : list string :=
  match path with
  | EmptyString => [EmptyString]
  | String c path' =>
      if bool_decide (c = "/"%char) then EmptyString :: components path'
      else match components path' with
           | name :: names => String c name :: names
           | [] => [String c EmptyString]
           end
  end.

(** A name that an entry of a directory can have: not empty, not [.]
    and not [..], without a slash and without the character 0. *)
Definition plain_name (name : string) : bool :=
  negb (bool_decide (name = EmptyString ∨ name = "." ∨ name = ".."))
  && negb (Str.contains name "/")
  && negb (Str.contains name NUL).

(** A path in normal form, relative to the current directory. *)
Definition relative_path (path : string) : bool :=
  forallb plain_name (components path).

(** [os.path.exists(path)] for a path in normal form. *)
Definition os_path_exists (d : gmap string node) (path : string) : bool :=
  bool_decide (is_Some (d !! path)).

(** What makes the operating system refuse to create or to write a path
    whose directory exists, if anything: the error it answers with. *)
Definition os_refusal : Type := string → option exn.

(** [os.mkdir(path)]. *)
Definition os_mkdir (refuses : os_refusal) (path : string) : M unit :=
  d ← get_fs;
  if bool_decide (path = EmptyString) then raise (FileNotFoundError path)
  else if Str.contains path NUL then raise (ValueError "embedded null byte")
  else
    match d !! path, parent_node d path with
    | Some _, _ => raise (FileExistsError path)
    | None, Some Dir =>
        match refuses path with
        | Some e => raise e
        | None => put_fs (<[path := Dir]> d)
        end
    | None, _ => raise (absent_error d path)
    end.

(** [os.makedirs(name)] for a name in normal form: the directories
    above [name] that are missing are made first, the highest first,
    then [name] itself.  The recursion is on the path of the directory
    above, which is shorter; it is run with one more step than [name]
    has characters. *)
Fixpoint os_makedirs_go (fuel : nat) (refuses : os_refusal) (name : string)
    : M unit :=
  match fuel with
  | 0 => raise FuelExhausted
  | S fuel' =>
      let head := parent_path name in
      d ← get_fs;
      (if negb (bool_decide (head = EmptyString))
          && negb (os_path_exists d head)
       then try_except (os_makedirs_go fuel' refuses head)
              (λ e, match e with
                    | FileExistsError _ => Some (mret ())
                    | _ => None
                    end)
       else mret ());;
      os_mkdir refuses name
  end.
Definition os_makedirs (refuses : os_refusal) (name : string) : M unit :=
  os_makedirs_go (S (String.length name)) refuses name.

(** [with open(path, 'w') as f: f.write(text)]; the node holds the text
    as a later reading in text mode gives it. *)
Definition open_write (refuses : os_refusal) (path text : string) : M unit :=
  d ← get_fs;
  if bool_decide (path = EmptyString) then raise (FileNotFoundError path)
  else if Str.contains path NUL then raise (ValueError "embedded null byte")
  else
    match d !! path, parent_node d path with
    | Some Dir, _ => raise (IsADirectoryError path)
    | _, Some Dir =>
        match refuses path with
        | Some e => raise e
        | None => put_fs (<[path := File (Str.universal_newlines text)]> d)
        end
    | _, _ => raise (absent_error d path)
    end.

(** Lines 129 and 130: the file name made from a heading. *)
Definition clean_char (c : ascii) : ascii :=
  if Str.isalnum c
     || bool_decide (c = " "%char ∨ c = "-"%char ∨ c = "_"%char)
  then c else "_"%char.
Definition heading_filename (heading : string) : string :=
  Str.lower (Str.replace_char " "%char "_"%char
               (Str.map_chars clean_char heading)).

(** Lines 127 to 132. *)
Definition filename_of (art : artifact) : string :=
  match a_heading art with
  | Some heading =>
      if bool_decide (a_type art = "markdown_section")
      then heading_filename heading
      else "artifact_" +:+ pretty (a_index art)
  | None => "artifact_" +:+ pretty (a_index art)
  end.

(** The [while os.path.exists(final_filename)] loop, entered with the
    current [final_filename] and [counter]. *)
Fixpoint unique_filename (fuel : nat) (d : gmap string node)
    (folder filename final_filename : string) (counter : nat)
    : option string :=
  match fuel with
  | 0 => None
  | S fuel' =>
      if os_path_exists d final_filename then
        unique_filename fuel' d folder filename
          (os_path_join folder
             (filename +:+ "_" +:+ pretty counter +:+ ".md"))
          (counter + 1)
      else Some final_filename
  end.

(** The loop is run with one more step than there are paths on disk;
    [FuelExhausted] stands for a loop that does not end and is shown
    below never to occur. *)
Definition save_artifact (refuses : os_refusal) (art : artifact)
    (folder : string) : M string :=
  d ← get_fs;
  (if negb (os_path_exists d folder) then os_makedirs refuses folder
   else mret ());;
  let filename := filename_of art in
  let base_filename := os_path_join folder (filename +:+ ".md") in
  d ← get_fs;
  match unique_filename (S (size d)) d folder filename base_filename 1 with
  | None => raise FuelExhausted
  | Some final_filename =>
      open_write refuses final_filename (a_content art);;
      mret final_filename
  end.

(** An export run: [save_artifact] on each artifact in turn. *)
Fixpoint export_run (refuses : os_refusal) (arts : list artifact)
    (folder : string) : M (list string) :=
  match arts with
  | [] => mret []
  | art :: rest =>
      path ← save_artifact refuses art folder;
      paths ← export_run refuses rest folder;
      mret (path :: paths)
  end.

(** ** [FirestoreClient.search_artifacts_by_content] *)

(** A value of a document: a text, an integer, [None] or [bytes]. *)
Inductive value :=
| VStr (s : string) | VInt (n : Z) | VNone | VBytes (b : string).

(** [type(v).__name__]. *)
Definition type_name (v : value) : string :=
  match v with
  | VStr _ => "str"
  | VInt _ => "int"
  | VNone => "NoneType"
  | VBytes _ => "bytes"
  end.

(** What [search_term in content.lower()] raises on a [content] that is
    not a text: [bytes] has a [lower] but does not take a [str] for
    [in]; the other types have no [lower]. *)
Definition content_error (v : value) : exn :=
  match v with
  | VBytes _ => TypeError "a bytes-like object is required, not 'str'"
  | _ => AttributeError ("'" +:+ type_name v
                         +:+ "' object has no attribute 'lower'")
  end.

(** The [conversations] collection in the order in which [stream()]
    yields it: each conversation id with the documents of its [artifacts]
    sub-collection, each an id and a dict. *)
Definition collection : Type :=
  list (string * list (string * gmap string value)).

(** What the instrumented store sees: each document that a stream
    yields. *)
Inductive read :=
| ReadConversation (conv_id : string)
| ReadArtifact (conv_id art_id : string).

(** The inner [for art_doc in artifacts_ref.stream()] loop; the flag of
    the result says whether [return results] was reached. *)
Fixpoint scan_artifacts (search_term : string) (limit : Z)
    (conv_id : string) (docs : list (string * gmap string value))
    (results : list (gmap string value)) (reads : list read)
    : exn + (bool * list (gmap string value) * list read) :=
  match docs with
  | [] => inr (false, results, reads)
  | (art_id, doc) :: docs' =>
      let reads := reads ++ [ReadArtifact conv_id art_id] in
      let artifact := <["id" := VStr art_id]> doc in
      match artifact !! "content" with
      | None => scan_artifacts search_term limit conv_id docs' results reads
      | Some (VStr text) =>
          if Str.contains (Str.lower text) search_term then
            let artifact := <["conversation_id" := VStr conv_id]> artifact in
            let results := results ++ [artifact] in
            if bool_decide (limit ≤ Z.of_nat (length results))%Z
            then inr (true, results, reads)
            else scan_artifacts search_term limit conv_id docs' results reads
          else scan_artifacts search_term limit conv_id docs' results reads
      | Some v => inl (content_error v)
      end
  end.

(** The outer [for conv_doc in self.conversations_ref.stream()] loop. *)
Fixpoint scan_conversations (search_term : string) (limit : Z)
    (convs : collection) (results : list (gmap string value))
    (reads : list read) : exn + (list (gmap string value) * list read) :=
  match convs with
  | [] => inr (results, reads)
  | (conv_id, docs) :: convs' =>
      let reads := reads ++ [ReadConversation conv_id] in
      match scan_artifacts search_term limit conv_id docs results reads with
      | inl e => inl e
      | inr (true, results, reads) => inr (results, reads)
      | inr (false, results, reads) =>
          scan_conversations search_term limit convs' results reads
      end
  end.

Definition search_artifacts_by_content (store : collection)
    (search_term : string) (limit : Z)
    : exn + (list (gmap string value) * list read) :=
  let search_term := Str.lower search_term in
  scan_conversations search_term limit store [] [].

(** ** Vocabulary of the statements *)

(** The last six messages of a history: what [range(max(0, n - 6), n)]
    selects. *)
Definition history_window (msgs : list message) : list message :=
  drop (length msgs - 6) msgs.

(** The summary block that precedes the history block. *)
Definition summary_block (st : state) (include_summary : bool) : string :=
  if include_summary && negb (bool_decide (summary st = EmptyString))
  then "# Previous Conversation Summary" +:+ LF +:+ summary st +:+ LF +:+ LF
  else EmptyString.

(** The history block for a window of messages. *)
Definition history_block (window : list message) : string :=
  match window with
  | [] => EmptyString
  | _ => "# Previous Messages" +:+ LF
         +:+ Str.concat (render_message <$> window)
         +:+ "# New Question" +:+ LF
  end.

(** One call of [ask_claude]: the behaviour of the SDK and the clock
    reading at that call, and the arguments. *)
Record exchange := Exchange {
  x_create : sdk_call;
  x_now : string;
  x_prompt : string;
  x_history : bool;
  x_summary : bool;
  x_max_tokens : Z
}.

(** A series of calls of [ask_claude], ended by the first that raises. *)
Fixpoint run_exchanges (xs : list exchange) : M (list reply) :=
  match xs with
  | [] => mret []
  | x :: rest =>
      r ← ask_claude (x_create x) (x_now x) (x_prompt x) (x_history x)
            (x_summary x) (x_max_tokens x);
      rs ← run_exchanges rest;
      mret (r :: rs)
  end.

(** The two messages that one exchange records. *)
Definition exchange_messages (x : exchange) (r : reply) : list message :=
  [ {| role := "user"; content := x_prompt x |};
    {| role := "assistant"; content := reply_content r |} ].

(** The number of occurrences of [x] in [l]. *)
Definition occurrences (x : string) (l : list string) : nat :=
  length (filter (λ y, y = x) l).

(** A text that [strip] returns starts and ends with a character that is
    not a space, or is empty. *)
Definition trimmed (t : string) : Prop :=
  Str.rstrip t = t
  ∧ match t with
    | EmptyString => True
    | String c _ => Str.isspace c = false
    end.

(** The fenced-block artifacts and the heading matches of a text, as the
    two passes of [extract_markdown] number them. *)
Definition code_artifacts (response_text : string) : list artifact :=
  code_block_artifact <$> enumerate (findall_code response_text).
Definition heading_matches (response_text : string)
    : list (nat * (string * string)) :=
  enumerate (findall_heading response_text).

(** The trimmed body of a heading match occurs in the content of some
    fenced-block artifact. *)
Definition body_in_code_artifact (arts : list artifact)
    (ihc : nat * (string * string)) : bool :=
  existsb (λ a, Str.contains (a_content a) (Str.strip ihc.2.2)) arts.

(** The characters that line 129 keeps as they are. *)
Definition keep_char (c : ascii) : bool :=
  Str.isalnum c || bool_decide (c = " "%char ∨ c = "-"%char ∨ c = "_"%char).

Fixpoint filter_chars (keep : ascii → bool) (s : string) : string :=
  match s with
  | EmptyString => EmptyString
  | String c s' =>
      if keep c then String c (filter_chars keep s') else filter_chars keep s'
  end.

(** The base name in the words of the specification: the other
    characters are discarded, then spaces become underscores and the
    text is lower-cased. *)
Definition heading_filename_spec (heading : string) : string :=
  Str.lower (Str.replace_char " "%char "_"%char
               (filter_chars keep_char heading)).

(** The [k]-th path that [save_artifact] tries for a file name:
    [<filename>.md] first, then [<filename>_<k>.md]. *)
Definition candidate (folder filename : string) (k : nat) : string :=
  os_path_join folder
    match k with
    | 0 => filename +:+ ".md"
    | S _ => filename +:+ "_" +:+ pretty k +:+ ".md"
    end.


(** A map that is the image of a directory tree under the current
    directory: each path is in normal form and lies in a directory. *)
Definition disk_ok (d : gmap string node) : Prop :=
  ∀ path, is_Some (d !! path) →
    relative_path path = true ∧ parent_node d path = Some Dir.

(** [creatable d name]: nothing is at [name], and the directory above
    it exists or can itself be created, so that [os.makedirs(name)] has
    only directories to make. *)
Inductive creatable (d : gmap string node) : string → Prop :=
| creatable_in (name : string) :
    name ≠ EmptyString →
    d !! name = None →
    parent_node d name = Some Dir →
    creatable d name
| creatable_below (name : string) :
    d !! name = None →
    parent_node d name = None →
    creatable d (parent_path name) →
    creatable d name.

(** A folder that [save_artifact] can write into: a path in normal form
    that is a directory or can be created. *)
Definition usable_folder (d : gmap string node) (folder : string) : Prop :=
  relative_path folder = true
  ∧ (d !! folder = Some Dir ∨ creatable d folder).

(** The operating system refuses no path. *)
Definition permissive (refuses : os_refusal) : Prop :=
  ∀ path, refuses path = None.

(** [p] has the extension [.md]. *)
Definition has_md_extension (p : string) : Prop := ∃ stem, p = stem +:+ ".md".

(** A record whose [content] holds the lower-cased term when
    lower-cased. *)
Definition content_matches (lowered_term : string)
    (r : gmap string value) : Prop :=
  ∃ text, r !! "content" = Some (VStr text)
          ∧ Str.contains (Str.lower text) lowered_term = true.

(** The record that the search returns for an artifact document. *)
Definition found_in (conv_id art_id : string) (r : gmap string value)
    : Prop :=
  r !! "id" = Some (VStr art_id)
  ∧ r !! "conversation_id" = Some (VStr conv_id).

(** Every read of a scan of the whole store. *)
Fixpoint full_scan (store : collection) : list read :=
  match store with
  | [] => []
  | (conv_id, docs) :: rest =>
      ReadConversation conv_id
      :: (ReadArtifact conv_id <$> docs.*1) ++ full_scan rest
  end.

(** ** Further functions of the notebook *)

(** [save_conversation_state]; [json_dump] is the encoder
    [json.dump(.., indent=2)] on the state. *)
Definition save_conversation_state (refuses : os_refusal)
    (json_dump : state → string) (filename : string) : M unit :=
  st ← get_state;
  open_write refuses filename (json_dump st);;
  print ("Conversation state saved to " +:+ filename).

(** The block that [include_file_in_prompt] returns for a file whose
    content, after truncation, is [content]. *)
Definition file_block (file_path content : string) : string :=
  LF +:+ "<file path=" +:+ DQUOTE +:+ file_path +:+ DQUOTE +:+ ">"
  +:+ LF +:+ "```" +:+ LF +:+ content +:+ LF +:+ "```" +:+ LF
  +:+ "</file>" +:+ LF.

(** What [read_file_content] returns for a path on a disk. *)
Definition file_text (d : gmap string node) (file_path : string) : string :=
  match d !! file_path with
  | Some (File data) => data
  | Some Dir =>
      "Error reading file: " +:+ exn_str (IsADirectoryError file_path)
  | None => "Error reading file: " +:+ exn_str (absent_error d file_path)
  end.


(** A character of the Basic Latin block (ASCII). *)
Definition is_ascii (c : ascii) : bool := (Str.ord c <? 128)%N.

(** A lower-case letter from a to z, a digit, a hyphen or an
    underscore. *)
Definition name_char (c : ascii) : bool :=
  let n := Str.ord c in
  ((97 <=? n) && (n <=? 122) || (48 <=? n) && (n <=? 57)
   || (n =? 45) || (n =? 95))%N.

(** The ledger after the paths were shared in turn. *)
Definition track_all (file_paths shared : list string) : list string :=
  fold_left (λ shared file_path, track_shared_file file_path shared)
    file_paths shared.




(** The prompt of the summary request for a history. *)
Definition summary_request (msgs : list message) : string :=
  summary_prompt_of (Str.concat (render_message <$> msgs)).

(** ** Vocabulary of the search *)

(** The record returned for the document [doc] with id [art_id] of the
    conversation [conv_id]. *)
Definition tagged (conv_id art_id : string) (doc : gmap string value)
    : gmap string value :=
  <["conversation_id" := VStr conv_id]> (<["id" := VStr art_id]> doc).

(** The stored document has a text [content] that holds the lower-cased
    term when lower-cased. *)
Definition doc_matches (lowered_term : string) (doc : gmap string value)
    : bool :=
  match doc !! "content" with
  | Some (VStr text) => Str.contains (Str.lower text) lowered_term
  | _ => false
  end.

(** The records of the matching documents of one conversation, and of
    the whole store, in the order of the scan. *)
Definition matches_in (lowered_term conv_id : string)
    (docs : list (string * gmap string value)) : list (gmap string value) :=
  (λ d, tagged conv_id d.1 d.2)
    <$> List.filter (λ d, doc_matches lowered_term d.2) docs.

Fixpoint all_matches (lowered_term : string) (store : collection)
    : list (gmap string value) :=
  match store with
  | [] => []
  | (conv_id, docs) :: rest =>
      matches_in lowered_term conv_id docs ++ all_matches lowered_term rest
  end.

(** The [content] of the document, if any, is text. *)
Definition content_is_text (doc : gmap string value) : Prop :=
  match doc !! "content" with
  | Some (VStr _) | None => True
  | Some _ => False
  end.

(** ** [FirestoreClient]: saving and reading back *)

(** The store behind [self.db]: the documents of the [conversations]
    collection by id, and for each conversation id the documents of its
    [artifacts] sub-collection by id.  A sub-collection can hold
    documents under an id that has no conversation document.  The
    payload [R] of [response] is not looked into.  The identifiers that
    [uuid.uuid4()] yields and the times that the server puts for
    [SERVER_TIMESTAMP] are arguments of the functions that draw them. *)
Section Firestore.
Variable R : Type.

Record conversation_doc := ConversationDoc {
  conv_created_at : Z;
  conv_prompt : string;
  conv_response : R;
  conv_anthropic_message_id : option string
}.

Record firestore := Firestore {
  conversations : gmap string conversation_doc;
  artifacts : gmap string (gmap string (gmap string value))
}.

(** [self.conversations_ref.document(conv_id).collection('artifacts')]. *)
Definition artifacts_ref (db : firestore) (conversation_id : string)
    : gmap string (gmap string value) :=
  default ∅ (artifacts db !! conversation_id).

(** [save_conversation]; [conversation_id] is the identifier drawn. *)
Definition save_conversation (conversation_id : string) (server_time : Z)
    (prompt : string) (response : R) (anthropic_message_id : option string)
    (db : firestore) : firestore * string :=
  let conversation_data :=
    {| conv_created_at := server_time; conv_prompt := prompt;
       conv_response := response;
       conv_anthropic_message_id := anthropic_message_id |} in
  ({| conversations :=
        <[conversation_id := conversation_data]> (conversations db);
      artifacts := artifacts db |},
   conversation_id).

(** The loop of [save_artifacts] from the [i]-th artifact on; [uuid i]
    and [server_time i] are the identifier and the time of the [i]-th
    write. *)
Fixpoint save_artifacts_from (uuid : nat → string) (server_time : nat → Z)
    (conversation_id : string) (i : nat)
    (arts : list (gmap string value)) (db : firestore)
    (artifact_ids : list string) : firestore * list string :=
  match arts with
  | [] => (db, artifact_ids)
  | art :: rest =>
      let artifact_id := uuid i in
      let artifact_data := <["created_at" := VInt (server_time i)]> art in
      let db :=
        {| conversations := conversations db;
           artifacts :=
             <[conversation_id :=
                 <[artifact_id := artifact_data]>
                   (artifacts_ref db conversation_id)]> (artifacts db) |} in
      save_artifacts_from uuid server_time conversation_id (S i) rest db
        (artifact_ids ++ [artifact_id])
  end.

Definition save_artifacts (uuid : nat → string) (server_time : nat → Z)
    (conversation_id : string) (arts : list (gmap string value))
    (db : firestore) : firestore * list string :=
  save_artifacts_from uuid server_time conversation_id 0 arts db [].

Definition get_conversation (conversation_id : string) (db : firestore)
    : option conversation_doc :=
  conversations db !! conversation_id.

Definition get_artifact (conversation_id artifact_id : string)
    (db : firestore) : option (gmap string value) :=
  match artifacts_ref db conversation_id !! artifact_id with
  | Some doc => Some (<["id" := VStr artifact_id]> doc)
  | None => None
  end.

(** [stream m] is the documents of a collection in the order in which
    [stream()] yields them. *)
Variable stream : ∀ A : Type, gmap string A → list (string * A).

Definition get_artifacts (conversation_id : string) (db : firestore)
    : list (gmap string value) :=
  (λ d, <["id" := VStr d.1]> d.2)
    <$> stream _ (artifacts_ref db conversation_id).

(** What [search_artifacts_by_content] scans in a store. *)
Definition collection_of (db : firestore) : collection :=
  (λ c, (c.1, stream _ (artifacts_ref db c.1)))
    <$> stream _ (conversations db).

End Firestore.

Arguments ConversationDoc {R}.
Arguments conv_created_at {R}.
Arguments conv_prompt {R}.
Arguments conv_response {R}.
Arguments conv_anthropic_message_id {R}.
Arguments Firestore {R}.
Arguments conversations {R}.
Arguments artifacts {R}.
Arguments artifacts_ref {R}.
Arguments save_conversation {R}.
Arguments save_artifacts_from {R}.
Arguments save_artifacts {R}.
Arguments get_conversation {R}.
Arguments get_artifact {R}.
Arguments get_artifacts {R}.
Arguments collection_of {R}.

(** * Properties *)

(** ** Text *)

Lemma app_cons (c : ascii) (s t : string) :
  String c s +:+ t = String c (s +:+ t).
Proof. reflexivity. Qed.

Lemma app_empty_l (s : string) : EmptyString +:+ s = s.
Proof. reflexivity. Qed.

Lemma app_empty_r (s : string) : s +:+ EmptyString = s.
Proof. induction s as [|c s IH]; [done|]. by rewrite app_cons, IH. Qed.

Lemma app_assoc_str (s t u : string) : (s +:+ t) +:+ u = s +:+ t +:+ u.
Proof. induction s as [|c s IH]; [done|]. by rewrite !app_cons, IH. Qed.

Lemma app_length_str (s t : string) :
  String.length (s +:+ t) = String.length s + String.length t.
Proof. induction s as [|c s IH]; [done|]. rewrite app_cons. simpl. lia. Qed.

(** ** C1: the history window of [ask_claude] *)

Lemma history_loop_drop (msgs : list message) (k start : nat) (acc : string) :
  start + k = length msgs →
  fold_left
    (λ full_prompt i,
       match msgs !! i with
       | Some msg => full_prompt +:+ render_message msg
       | None => full_prompt
       end)
    (seq start k) acc
  = acc +:+ Str.concat (render_message <$> drop start msgs).
Proof.
  revert start acc. induction k as [|k IH]; intros start acc Hlen.
  - rewrite drop_ge by lia. simpl. by rewrite app_empty_r.
  - destruct (lookup_lt_is_Some_2 msgs start) as [m Hm]; [lia|].
    simpl. rewrite Hm, IH by lia.
    rewrite (drop_S _ _ _ Hm). simpl. by rewrite app_assoc_str.
Qed.

Lemma history_window_length (msgs : list message) :
  length (history_window msgs) = length msgs `min` 6.
Proof. unfold history_window. rewrite length_drop. lia. Qed.

Lemma history_window_suffix (msgs : list message) :
  msgs = take (length msgs - length msgs `min` 6) msgs ++ history_window msgs.
Proof.
  unfold history_window.
  replace (length msgs - length msgs `min` 6) with (length msgs - 6) by lia.
  by rewrite take_drop.
Qed.

Lemma render_message_cases (msg : message) :
  render_message msg = "Human: " +:+ content msg +:+ LF +:+ LF
  ∨ render_message msg = "Assistant: " +:+ content msg +:+ LF +:+ LF.
Proof. unfold render_message. case_bool_decide; [by left|by right]. Qed.

Lemma full_prompt_of_history (st : state) (prompt : string)
    (include_summary : bool) :
  full_prompt_of st prompt true include_summary
  = (summary_block st include_summary
     +:+ history_block (history_window (messages st))) +:+ prompt.
Proof.
  unfold full_prompt_of, summary_block, range.
  rewrite !app_empty_l. f_equal.
  set (sb := if include_summary && _ then _ else _).
  destruct (messages st) as [|m0 msgs] eqn:Hmsgs.
  { simpl. by rewrite app_empty_r. }
  rewrite bool_decide_eq_false_2 by done. cbn [andb negb].
  rewrite history_loop_drop by lia.
  replace (Z.to_nat (Z.max 0 (Z.of_nat (length (m0 :: msgs)) - 6)))
    with (length (m0 :: msgs) - 6) by lia.
  fold (history_window (m0 :: msgs)).
  assert (history_window (m0 :: msgs) ≠ []) as Hne.
  { intros Heq. apply (f_equal length) in Heq.
    rewrite history_window_length in Heq. simpl in Heq. lia. }
  unfold history_block. destruct (history_window (m0 :: msgs)); [done|].
  by rewrite !app_assoc_str.
Qed.

(** C1.  With history inclusion enabled, the prompt that [ask_claude]
    hands to the SDK is the summary block, then (when there is at least
    one message) the history block of the window, then the new prompt,
    where the window is the last [min n 6] of the [n] messages in
    conversation order, each rendered as [Human: <content>] or
    [Assistant: <content>]; no message before the window enters the
    prompt. *)
Theorem ask_claude_history_window (create : sdk_call) (now prompt : string)
    (include_summary : bool) (max_tokens : Z) (w : world) :
  let msgs := messages (conversation_state w) in
  let window := history_window msgs in
  let sent :=
    (summary_block (conversation_state w) include_summary
     +:+ history_block window) +:+ prompt in
  length window = length msgs `min` 6
  ∧ msgs = take (length msgs - length msgs `min` 6) msgs ++ window
  ∧ Forall (λ msg,
      render_message msg = "Human: " +:+ content msg +:+ LF +:+ LF
      ∨ render_message msg = "Assistant: " +:+ content msg +:+ LF +:+ LF)
      window
  ∧ full_prompt_of (conversation_state w) prompt true include_summary = sent
  ∧ ask_claude create now prompt true include_summary max_tokens w
    = ask_claude (λ _ _, create sent max_tokens) now prompt true
        include_summary max_tokens w.
Proof.
  intros msgs window sent.
  split; [apply history_window_length|].
  split; [apply history_window_suffix|].
  split; [apply Forall_forall; intros; apply render_message_cases|].
  assert (full_prompt_of (conversation_state w) prompt true include_summary
          = sent) as Hsent by apply full_prompt_of_history.
  split; [done|].
  unfold ask_claude, send_message, get_state, mbind, M_bind.
  by rewrite Hsent.
Qed.

(** The prompt does not depend on what precedes the window. *)
Corollary full_prompt_of_older (older recent : list message)
    (s : string) (shared : list string) (t prompt : string)
    (include_summary : bool) :
  length recent = 6 →
  full_prompt_of (State (older ++ recent) s shared t) prompt true
    include_summary
  = full_prompt_of (State recent s shared t) prompt true include_summary.
Proof.
  intros Hlen. rewrite !full_prompt_of_history.
  unfold summary_block, history_window. simpl.
  rewrite length_app, Hlen.
  replace (length older + 6 - 6) with (length older) by lia.
  by rewrite drop_app_length.
Qed.

(** ** C6, C7: what an exchange records *)

Lemma full_prompt_of_plain (st : state) (prompt : string) :
  full_prompt_of st prompt false false = prompt.
Proof. reflexivity. Qed.

(** A call of [ask_claude] whose SDK call answers. *)
Lemma ask_claude_success (create : sdk_call) (now prompt : string)
    (include_history include_summary : bool) (max_tokens : Z) (w : world)
    (resp : response) :
  let st := conversation_state w in
  let sent := full_prompt_of st prompt include_history include_summary in
  create sent max_tokens = inr resp →
  ∃ line,
    ask_claude create now prompt include_history include_summary max_tokens w
    = (inr {| message_id := response_id resp;
              model := response_model resp;
              reply_content := text_content_of resp;
              tokens_used := Str.count_words sent / 3 |},
       {| conversation_state :=
            {| messages :=
                 messages st
                 ++ [ {| role := "user"; content := prompt |};
                      {| role := "assistant";
                         content := text_content_of resp |} ];
               summary := summary st;
               shared_files := shared_files st;
               last_updated := now |};
          stdout := stdout w ++ [line];
          fs := fs w |}).
Proof.
  intros st sent Hresp. eexists.
  unfold ask_claude, send_message, get_state, print, modify_state, put_state,
    mbind, M_bind, mret, M_ret.
  cbn. fold st. fold sent. rewrite Hresp. cbn.
  unfold set_last_updated, append_message. cbn.
  by rewrite <-app_assoc.
Qed.

(** A call of [ask_claude] whose SDK call raises. *)
Lemma ask_claude_failure (create : sdk_call) (now prompt : string)
    (include_history include_summary : bool) (max_tokens : Z) (w : world)
    (e : exn) :
  let st := conversation_state w in
  let sent := full_prompt_of st prompt include_history include_summary in
  create sent max_tokens = inl e →
  ∃ line,
    ask_claude create now prompt include_history include_summary max_tokens w
    = (inl e,
       {| conversation_state := st;
          stdout := stdout w
                    ++ [line; "Error sending message to Claude: "
                              +:+ exn_str e];
          fs := fs w |}).
Proof.
  intros st sent Herr. eexists.
  unfold ask_claude, send_message, get_state, print, raise,
    mbind, M_bind, mret, M_ret.
  cbn. fold st. fold sent. rewrite Herr. cbn.
  by rewrite <-app_assoc.
Qed.

(** Whatever the SDK does, [ask_claude] ends in one of the two ways. *)
Lemma ask_claude_inv (create : sdk_call) (now prompt : string)
    (include_history include_summary : bool) (max_tokens : Z) (w w' : world)
    (r : reply) :
  ask_claude create now prompt include_history include_summary max_tokens w
  = (inr r, w') →
  ∃ resp,
    create (full_prompt_of (conversation_state w) prompt include_history
              include_summary) max_tokens = inr resp
    ∧ reply_content r = text_content_of resp
    ∧ conversation_state w'
      = {| messages :=
             messages (conversation_state w)
             ++ [ {| role := "user"; content := prompt |};
                  {| role := "assistant"; content := reply_content r |} ];
           summary := summary (conversation_state w);
           shared_files := shared_files (conversation_state w);
           last_updated := now |}
    ∧ fs w' = fs w.
Proof.
  intros Hrun.
  destruct (create (full_prompt_of (conversation_state w) prompt
                      include_history include_summary) max_tokens)
    as [e|resp] eqn:Hc.
  - destruct (ask_claude_failure _ now _ _ _ _ _ _ Hc) as [line Hf].
    rewrite Hf in Hrun. discriminate.
  - destruct (ask_claude_success _ now _ _ _ _ _ _ Hc) as [line Hs].
    rewrite Hs in Hrun. injection Hrun as <- <-. by exists resp.
Qed.

(** C6.  Every completed call of [ask_claude] appends two messages, the
    user message with the new prompt and then the assistant message with
    the text extracted from the response, and sets [last_updated] to the
    clock reading; a series of [k] completed calls therefore adds [2k]
    messages, and leaves [2k] when it starts from no messages. *)
Theorem ask_claude_records_exchange (xs : list exchange) (w w' : world)
    (rs : list reply) :
  run_exchanges xs w = (inr rs, w') →
  let st := conversation_state w in
  let st' := conversation_state w' in
  length rs = length xs
  ∧ messages st' = messages st ++ concat (zip_with exchange_messages xs rs)
  ∧ length (messages st') = length (messages st) + 2 * length xs
  ∧ (messages st = [] → length (messages st') = 2 * length xs)
  ∧ last_updated st' = default (last_updated st) (last (x_now <$> xs))
  ∧ summary st' = summary st
  ∧ shared_files st' = shared_files st
  ∧ Forall2
      (λ x r, ∃ sent resp,
         x_create x sent (x_max_tokens x) = inr resp
         ∧ reply_content r = text_content_of resp)
      xs rs.
Proof.
  revert w rs. induction xs as [|x xs IH]; intros w rs Hrun; cbn zeta.
  - injection Hrun as <- <-. cbn. rewrite app_nil_r.
    repeat split; auto. by intros ->.
  - cbn in Hrun. unfold mbind, M_bind in Hrun.
    destruct (ask_claude _ _ _ _ _ _ w) as [[e|r] w1] eqn:H1; [done|].
    fold (mbind (M := M) (A := list reply) (B := list reply)) in Hrun.
    destruct (run_exchanges xs w1) as [[e|rs1] w2] eqn:H2; [done|].
    injection Hrun as <- <-.
    apply ask_claude_inv in H1 as (resp & Hc & Hr & Hst & _).
    destruct (IH _ _ H2) as (Hlen & Hm & Hl & _ & Ht & Hs & Hf & Hall).
    rewrite Hst in Hm, Hl, Ht, Hs, Hf. cbn in Hm, Hl, Ht, Hs, Hf.
    assert (length (messages (conversation_state w2))
            = length (messages (conversation_state w)) + 2 * length (x :: xs))
      as Hl'.
    { rewrite Hl, length_app. cbn. lia. }
    split; [cbn; by rewrite Hlen|].
    split; [cbn; by rewrite Hm, <-app_assoc|].
    split; [done|].
    split; [intros Hnil; rewrite Hl', Hnil; cbn; lia|].
    split.
    { rewrite Ht. rewrite fmap_cons, last_cons.
      by destruct (last (x_now <$> xs)). }
    split; [done|]. split; [done|].
    constructor; [by eexists _, resp|done].
Qed.

Lemma ask_claude_records_exchange_witness :
  let create : sdk_call := λ _ _,
    inr {| response_id := "msg_01"; response_model := "claude";
           response_content := [ {| block_type := "text";
                                    block_text := "Hello." |} ] |} in
  let xs := [ Exchange create "t1" "Hi" true true 1000;
              Exchange create "t2" "And now?" true true 1000 ] in
  ∃ w',
    (run_exchanges xs (World (empty_state "t0") [] ∅)).2 = w'
    ∧ length (messages (conversation_state w')) = 4.
Proof.
  intros create xs. eexists. split; [reflexivity|].
  refine (proj1 (proj2 (proj2 (proj2
    (ask_claude_records_exchange xs (World (empty_state "t0") [] ∅) _ _ _))))
    _); reflexivity.
Defined.

(** C7.  When the SDK call raises, [ask_claude] raises the same
    exception and the conversation state is what it was: no message is
    appended, and the summary, the shared files and the time stamp keep
    their values. *)
Theorem ask_claude_failed_call_keeps_state (create : sdk_call)
    (now prompt : string) (include_history include_summary : bool)
    (max_tokens : Z) (w : world) (e : exn) :
  create (full_prompt_of (conversation_state w) prompt include_history
            include_summary) max_tokens = inl e →
  ∃ w',
    ask_claude create now prompt include_history include_summary max_tokens w
    = (inl e, w')
    ∧ conversation_state w' = conversation_state w
    ∧ messages (conversation_state w') = messages (conversation_state w)
    ∧ summary (conversation_state w') = summary (conversation_state w)
    ∧ shared_files (conversation_state w')
      = shared_files (conversation_state w)
    ∧ fs w' = fs w.
Proof.
  intros Herr.
  destruct (ask_claude_failure _ now _ _ _ _ _ _ Herr) as [line Hf].
  eexists. split; [exact Hf|]. by cbn.
Qed.

Lemma ask_claude_failed_call_keeps_state_witness :
  let st :=
    {| messages := [ {| role := "user"; content := "Hi" |};
                     {| role := "assistant"; content := "Hello." |} ];
       summary := "greeting"; shared_files := ["a.py"];
       last_updated := "t0" |} in
  ∃ w',
    ask_claude (λ _ _, inl (APIError "overloaded")) "t1" "More?" true true
      1000 (World st [] ∅)
    = (inl (APIError "overloaded"), w')
    ∧ conversation_state w' = st.
Proof.
  intros st.
  destruct (ask_claude_failed_call_keeps_state
              (λ _ _, inl (APIError "overloaded")) "t1" "More?" true true
              1000 (World st [] ∅) (APIError "overloaded") eq_refl)
    as (w' & Hrun & Hst & _).
  exists w'. by split.
Defined.

(** ** C10: the summary goes through an exchange *)

Lemma render_loop_concat (msgs : list message) (acc : string) :
  fold_left (λ recent_convo msg, recent_convo +:+ render_message msg)
    msgs acc
  = acc +:+ Str.concat (render_message <$> msgs).
Proof.
  revert acc. induction msgs as [|m msgs IH]; intros acc; simpl.
  - by rewrite app_empty_r.
  - by rewrite IH, app_assoc_str.
Qed.

(** C10.  With at least two messages and an SDK call that answers,
    [generate_conversation_summary] overwrites the summary with the
    extracted text and, because it asks through [ask_claude], also
    appends the summary request as a user message and the summary as an
    assistant message, and sets [last_updated]. *)
Theorem generate_conversation_summary_records_exchange (create : sdk_call)
    (now : string) (w : world) (resp : response) :
  let st := conversation_state w in
  let summary_prompt :=
    summary_prompt_of (Str.concat (render_message <$> messages st)) in
  let text := text_content_of resp in
  2 ≤ length (messages st) →
  create summary_prompt 1000%Z = inr resp →
  ∃ w',
    generate_conversation_summary create now w = (inr (Some text), w')
    ∧ conversation_state w'
      = {| messages :=
             messages st
             ++ [ {| role := "user"; content := summary_prompt |};
                  {| role := "assistant"; content := text |} ];
           summary := text;
           shared_files := shared_files st;
           last_updated := now |}
    ∧ length (messages (conversation_state w')) = length (messages st) + 2.
Proof.
  intros st summary_prompt text Hlen Hresp.
  unfold generate_conversation_summary.
  unfold mbind at 1, M_bind at 1, get_state. fold st.
  rewrite bool_decide_eq_false_2 by lia.
  rewrite render_loop_concat, app_empty_l. fold summary_prompt.
  destruct (ask_claude_success create now summary_prompt false false 1000 w
              resp) as [line Hask].
  { by rewrite full_prompt_of_plain. }
  unfold mbind at 1, M_bind at 1. rewrite Hask.
  eexists. split; [reflexivity|].
  cbn. fold st. split; [done|]. rewrite length_app. cbn. lia.
Qed.

Lemma generate_conversation_summary_records_exchange_witness :
  let st :=
    {| messages := [ {| role := "user"; content := "Hi" |};
                     {| role := "assistant"; content := "Hello." |} ];
       summary := EmptyString; shared_files := [];
       last_updated := "t0" |} in
  let resp :=
    {| response_id := "msg_02"; response_model := "claude";
       response_content := [ {| block_type := "text";
                                block_text := "A greeting." |} ] |} in
  ∃ w',
    generate_conversation_summary (λ _ _, inr resp) "t1" (World st [] ∅)
    = (inr (Some "A greeting."), w')
    ∧ summary (conversation_state w') = "A greeting."
    ∧ length (messages (conversation_state w')) = 4.
Proof.
  intros st resp.
  destruct (generate_conversation_summary_records_exchange
              (λ _ _, inr resp) "t1" (World st [] ∅) resp
              (le_n 2) eq_refl)
    as (w' & Hrun & Hst & Hlen).
  exists w'. split; [exact Hrun|]. split; [by rewrite Hst|exact Hlen].
Defined.

(** With fewer than two messages nothing is sent and nothing changes but
    the output. *)
Lemma generate_conversation_summary_too_short (create : sdk_call)
    (now : string) (w : world) :
  length (messages (conversation_state w)) < 2 →
  generate_conversation_summary create now w
  = (inr None,
     {| conversation_state := conversation_state w;
        stdout := stdout w ++ ["Not enough conversation to summarize."];
        fs := fs w |}).
Proof.
  intros Hlen. unfold generate_conversation_summary.
  unfold mbind at 1, M_bind at 1, get_state.
  by rewrite bool_decide_eq_true_2 by done.
Qed.

(** ** C4: loading the state from an absent file *)

(** When the file is missing the call returns normally, prints its
    notice and leaves [conversation_state] as it was. *)
Lemma load_conversation_state_absent (json_load : string → exn + state)
    (filename : string) (w : world) :
  fs w !! filename = None →
  absent_error (fs w) filename = FileNotFoundError filename →
  load_conversation_state json_load filename w
  = (inr (),
     {| conversation_state := conversation_state w;
        stdout := stdout w
                  ++ ["File " +:+ filename
                      +:+ " not found. Using empty conversation state."];
        fs := fs w |}).
Proof.
  intros Habs Herr.
  unfold load_conversation_state, try_except, open_read, get_fs,
    mbind, M_bind, raise.
  by rewrite Habs, Herr.
Qed.

(** C4, on the code.  After an exchange is recorded, loading from an
    absent file returns normally and announces an empty conversation
    state, but the state still holds the recorded messages. *)
Theorem load_conversation_state_absent_not_reset :
  let st :=
    {| messages := [ {| role := "user"; content := "Hi" |};
                     {| role := "assistant"; content := "Hello." |} ];
       summary := "greeting"; shared_files := ["a.py"];
       last_updated := "t0" |} in
  let w := World st [] ∅ in
  ∃ w',
    load_conversation_state (λ _, inl (JSONDecodeError "unused"))
      "claude_conversation_state.json" w = (inr (), w')
    ∧ stdout w'
      = ["File claude_conversation_state.json not found. "
         +:+ "Using empty conversation state."]
    ∧ conversation_state w' = st
    ∧ messages (conversation_state w') ≠ [].
Proof.
  intros st w. eexists. split.
  { by apply load_conversation_state_absent. }
  by cbn.
Qed.

(** ** C9: tracking shared files *)

Lemma occurrences_app (x : string) (l k : list string) :
  occurrences x (l ++ k) = occurrences x l + occurrences x k.
Proof. unfold occurrences. by rewrite filter_app, length_app. Qed.

Lemma occurrences_zero (x : string) (l : list string) :
  x ∉ l ↔ occurrences x l = 0.
Proof.
  unfold occurrences. induction l as [|y l IH].
  - split; [done|]. intros _. apply not_elem_of_nil.
  - rewrite filter_cons, not_elem_of_cons. case_decide; simpl.
    + split; [intros [? _]; congruence|lia].
    + rewrite IH. split; [by intros [_ ?]|]. intros ?. split; [congruence|done].
Qed.

Lemma track_shared_file_idempotent (file_path : string)
    (shared : list string) :
  track_shared_file file_path (track_shared_file file_path shared)
  = track_shared_file file_path shared.
Proof.
  unfold track_shared_file.
  destruct (bool_decide (file_path ∈ shared)) eqn:Hin.
  - by rewrite Hin.
  - rewrite bool_decide_eq_true_2; [done|].
    apply elem_of_app. right. by apply list_elem_of_singleton.
Qed.

Lemma track_shared_file_occurrences (file_path : string)
    (shared : list string) :
  occurrences file_path (track_shared_file file_path shared)
  = occurrences file_path shared `max` 1.
Proof.
  unfold track_shared_file. case_bool_decide as Hin.
  - destruct (occurrences file_path shared) eqn:Hocc; [|lia].
    by apply occurrences_zero in Hocc.
  - rewrite occurrences_app. apply occurrences_zero in Hin as ->.
    unfold occurrences. rewrite filter_cons. by case_decide.
Qed.

(** The ledger stays free of duplicates. *)
Lemma track_shared_file_NoDup (file_path : string) (shared : list string) :
  NoDup shared → NoDup (track_shared_file file_path shared).
Proof.
  intros Hnd. unfold track_shared_file. case_bool_decide as Hin; [done|].
  apply NoDup_app. split; [done|]. split; [|apply NoDup_singleton].
  intros x Hx ->%list_elem_of_singleton. done.
Qed.

(** C9, as the code has it.  When the path occurs at most once in the
    ledger, sharing it twice leaves exactly one occurrence; the second
    sharing changes nothing, and the earlier entries keep their places:
    the ledger is the old one, followed by the path if it was new. *)
Theorem track_shared_file_twice (file_path : string)
    (shared : list string) :
  occurrences file_path shared ≤ 1 →
  let shared2 :=
    track_shared_file file_path (track_shared_file file_path shared) in
  occurrences file_path shared2 = 1
  ∧ shared2 = track_shared_file file_path shared
  ∧ shared2 = (if bool_decide (file_path ∈ shared) then shared
               else shared ++ [file_path]).
Proof.
  intros Hocc shared2. unfold shared2.
  rewrite track_shared_file_idempotent.
  split; [rewrite track_shared_file_occurrences; lia|]. by split.
Qed.

Lemma track_shared_file_twice_witness :
  occurrences "a.py" ["a.py"; "b.py"] ≤ 1
  ∧ track_shared_file "a.py" (track_shared_file "a.py" ["a.py"; "b.py"])
    = ["a.py"; "b.py"].
Proof.
  split; [vm_compute; lia|].
  exact (proj1 (proj2 (track_shared_file_twice "a.py" ["a.py"; "b.py"]
                         ltac:(vm_compute; lia)))).
Defined.

(** C9 as stated fails on a ledger that already repeats the path: the
    code never removes an entry. *)
Lemma track_shared_file_twice_counterexample :
  occurrences "a.py"
    (track_shared_file "a.py" (track_shared_file "a.py" ["a.py"; "a.py"]))
  ≠ 1.
Proof. vm_compute. discriminate. Qed.

(** What [share_files_loop] does to the ledger. *)
Lemma share_files_loop_shared (file_paths : list string) (prompt : string)
    (w : world) :
  shared_files (conversation_state (share_files_loop file_paths prompt w).2)
  = fold_left (λ shared file_path, track_shared_file file_path shared)
      file_paths (shared_files (conversation_state w)).
Proof.
  revert prompt w. induction file_paths as [|p ps IH]; intros prompt w.
  - done.
  - cbn [share_files_loop fold_left].
    unfold mbind at 1, M_bind at 1.
    destruct (include_file_in_prompt p None w) as [[e|formatted] w1] eqn:Hinc.
    + unfold include_file_in_prompt, read_file_content, try_except,
        open_read, get_fs, mbind, M_bind, mret, M_ret, raise in Hinc.
      by destruct (fs w !! p) as [[|data]|].
    + assert (w1 = w) as ->.
      { unfold include_file_in_prompt, read_file_content, try_except,
          open_read, get_fs, mbind, M_bind, mret, M_ret, raise in Hinc.
        destruct (fs w !! p) as [[|data]|]; by injection Hinc. }
      unfold mbind at 1, M_bind at 1, modify_state, get_state, put_state.
      unfold mbind at 1, M_bind at 1. cbn beta iota.
      rewrite IH. done.
Qed.

(** ** Substrings and stripping *)

Lemma startswith_spec (s p : string) :
  Str.startswith s p = true ↔ ∃ r, s = p +:+ r.
Proof.
  revert s. induction p as [|a p IH]; intros s.
  - split; [by exists s|by destruct s].
  - destruct s as [|b s]; simpl.
    + split; [done|]. by intros [r ?].
    + rewrite andb_true_iff, bool_decide_eq_true, IH. split.
      * intros [-> [r ->]]. by exists r.
      * intros [r Hr]. rewrite app_cons in Hr. injection Hr as -> ->.
        split; [done|by exists r].
Qed.

Lemma contains_spec (s t : string) :
  Str.contains s t = true ↔ Str.substr t s.
Proof.
  induction s as [|c s IH].
  - change (Str.contains EmptyString t)
      with (Str.startswith EmptyString t || false).
    rewrite orb_false_r, startswith_spec. split.
    + intros [r Hr]. exists EmptyString, r. done.
    + intros (l & r & Hlr). destruct l; [by exists r|done].
  - change (Str.contains (String c s) t)
      with (Str.startswith (String c s) t || Str.contains s t).
    rewrite orb_true_iff, startswith_spec, IH. split.
    + intros [[r Hr]|(l & r & Hlr)].
      * exists EmptyString, r. done.
      * exists (String c l), r. by rewrite app_cons, Hlr.
    + intros (l & r & Hlr). destruct l as [|c' l].
      * left. by exists r.
      * right. rewrite app_cons in Hlr. injection Hlr as -> ->.
        by exists l, r.
Qed.

Lemma substr_empty (s : string) : Str.substr EmptyString s.
Proof. by exists EmptyString, s. Qed.

Lemma substr_trans (s t u : string) :
  Str.substr s t → Str.substr t u → Str.substr s u.
Proof.
  intros (l1 & r1 & ->) (l2 & r2 & ->).
  exists (l2 +:+ l1), (r1 +:+ r2). by rewrite !app_assoc_str.
Qed.

Lemma lstrip_substr (s : string) : Str.substr (Str.lstrip s) s.
Proof.
  induction s as [|c s IH]; simpl.
  - apply substr_empty.
  - destruct (Str.isspace c).
    + destruct IH as (l & r & Hlr). exists (String c l), r.
      by rewrite app_cons, <-Hlr.
    + exists EmptyString, EmptyString. by rewrite app_empty_l, app_empty_r.
Qed.

Lemma rstrip_prefix (s : string) : ∃ r, s = Str.rstrip s +:+ r.
Proof.
  induction s as [|c s [r IH]]; simpl.
  - by exists EmptyString.
  - destruct (Str.rstrip s) as [|c' s'] eqn:Hr.
    + destruct (Str.isspace c).
      * by exists (String c s).
      * exists r. by rewrite app_cons, <-IH.
    + exists r. by rewrite app_cons, <-IH.
Qed.

Lemma rstrip_substr (s : string) : Str.substr (Str.rstrip s) s.
Proof. destruct (rstrip_prefix s) as [r Hr]. by exists EmptyString, r. Qed.

Lemma strip_substr (s : string) : Str.substr (Str.strip s) s.
Proof.
  eapply substr_trans; [apply rstrip_substr|apply lstrip_substr].
Qed.

Lemma lstrip_head (s : string) (c : ascii) (s' : string) :
  Str.lstrip s = String c s' → Str.isspace c = false.
Proof.
  induction s as [|a s IH]; simpl; [done|].
  destruct (Str.isspace a) eqn:Ha; [done|]. by intros [= <- _].
Qed.

Lemma rstrip_head (s : string) (c : ascii) (s' : string) :
  Str.rstrip s = String c s' → ∃ s'', s = String c s''.
Proof.
  destruct s as [|a s]; simpl; [done|].
  destruct (Str.rstrip s); [destruct (Str.isspace a)|];
    intros [= <- _]; by eexists.
Qed.

Lemma rstrip_idem (s : string) : Str.rstrip (Str.rstrip s) = Str.rstrip s.
Proof.
  induction s as [|c s IH]; simpl; [done|].
  destruct (Str.rstrip s) as [|c' s'] eqn:Hr.
  - destruct (Str.isspace c) eqn:Hc; simpl; [done|]. by rewrite Hc.
  - change (Str.rstrip (String c (String c' s')))
      with (match Str.rstrip (String c' s') with
            | EmptyString =>
                if Str.isspace c then EmptyString else String c EmptyString
            | r => String c r
            end).
    by rewrite IH.
Qed.

Lemma strip_trimmed (s : string) : trimmed (Str.strip s).
Proof.
  unfold trimmed, Str.strip. split; [apply rstrip_idem|].
  destruct (Str.rstrip (Str.lstrip s)) as [|c t] eqn:Hr; [done|].
  apply rstrip_head in Hr as [s'' Hs]. by apply lstrip_head in Hs.
Qed.

Lemma lstrip_keeps (t l r : string) :
  trimmed t → t ≠ EmptyString →
  Str.substr t (Str.lstrip (l +:+ t +:+ r)).
Proof.
  intros [_ Hhead] Hne. destruct t as [|a t]; [done|].
  induction l as [|c l IH].
  - rewrite app_empty_l, app_cons. simpl. rewrite Hhead.
    exists EmptyString, r. done.
  - rewrite app_cons. simpl. destruct (Str.isspace c); [done|].
    exists (String c l), r. done.
Qed.

Lemma rstrip_keeps (t l r : string) :
  trimmed t → t ≠ EmptyString →
  ∃ r', Str.rstrip (l +:+ t +:+ r) = l +:+ t +:+ r'.
Proof.
  intros [Hrs _] Hne.
  assert (∀ u, u ≠ EmptyString → Str.rstrip u = u →
               ∃ r', Str.rstrip (u +:+ r) = u +:+ r') as Hbase.
  { induction u as [|c u IH]; [done|]. intros _ Hu. simpl in Hu.
    rewrite app_cons. simpl.
    destruct u as [|c' u].
    - simpl in Hu. destruct (Str.isspace c) eqn:Hc; [done|].
      rewrite app_empty_l.
      destruct (Str.rstrip r) as [|a r'].
      + by exists EmptyString.
      + by exists (String a r').
    - destruct (Str.rstrip (String c' u)) as [|a v] eqn:Hv.
      { destruct (Str.isspace c); discriminate. }
      simplify_eq. destruct IH as [r' Hr']; [done|done|].
      rewrite Hr', app_cons. by exists r'. }
  induction l as [|c l [r' IH]].
  - rewrite app_empty_l. by apply Hbase.
  - rewrite app_cons. simpl. rewrite IH.
    exists r'. destruct l; [by destruct t|done].
Qed.

Lemma substr_strip (t b : string) :
  trimmed t → Str.substr t b ↔ Str.substr t (Str.strip b).
Proof.
  intros Ht. split.
  - destruct (decide (t = EmptyString)) as [->|Hne].
    { intros. apply substr_empty. }
    intros (l & r & ->). unfold Str.strip.
    destruct (lstrip_keeps t l r Ht Hne) as (l1 & r1 & ->).
    destruct (rstrip_keeps t l1 r1 Ht Hne) as [r' ->].
    by exists l1, r'.
  - intros Hs. eapply substr_trans; [exact Hs|apply strip_substr].
Qed.

Lemma contains_strip (b c : string) :
  Str.contains b (Str.strip c) = Str.contains (Str.strip b) (Str.strip c).
Proof.
  apply eq_true_iff_eq. rewrite !contains_spec.
  apply substr_strip, strip_trimmed.
Qed.

(** ** The scans of [re.findall] use no more steps than they are given *)

Lemma drop_length (n : nat) (s : string) :
  String.length (Str.drop n s) = String.length s - n.
Proof.
  revert s. induction n as [|n IH]; intros [|c s]; simpl; try done.
Qed.

Lemma lstrip_length (s : string) :
  String.length (Str.lstrip s) ≤ String.length s.
Proof.
  induction s as [|c s IH]; simpl; [done|].
  destruct (Str.isspace c); simpl; lia.
Qed.

Lemma startswith_length (s p : string) :
  Str.startswith s p = true → String.length p ≤ String.length s.
Proof.
  intros [r ->]%startswith_spec. rewrite app_length_str. lia.
Qed.

Lemma split_at_fence_length (s g rest : string) :
  split_at_fence s = Some (g, rest) →
  String.length rest + 3 ≤ String.length s.
Proof.
  revert g. induction s as [|c s IH]; intros g.
  - cbn. discriminate.
  - cbn [split_at_fence].
    destruct (Str.startswith (String c s) FENCE) eqn:Hf.
    + intros [= <- <-]. apply startswith_length in Hf.
      pose proof (drop_length 3 (String c s)) as Hd.
      simpl in Hd, Hf |- *. lia.
    + destruct (split_at_fence s) as [[g' rest']|]; [|done].
      intros [= <- <-]. specialize (IH _ eq_refl). simpl. lia.
Qed.

Lemma match_code_at_length (s g rest : string) :
  match_code_at s = Some (g, rest) → String.length rest < String.length s.
Proof.
  unfold match_code_at. destruct (Str.startswith s FENCE) eqn:Hf; [|done].
  intros Hsplit%split_at_fence_length. apply startswith_length in Hf.
  pose proof (lstrip_length
    (if Str.startswith (Str.drop 3 s) "markdown"
     then Str.drop 8 (Str.drop 3 s) else Str.drop 3 s)) as Hl.
  destruct (Str.startswith (Str.drop 3 s) "markdown");
    rewrite !drop_length in Hl; simpl in Hf; lia.
Qed.

Lemma findall_code_go_fuel (n m : nat) (s : string) :
  String.length s < n → String.length s < m →
  findall_code_go n s = findall_code_go m s.
Proof.
  revert m s. induction n as [|n IH]; intros m s Hn Hm; [lia|].
  destruct m as [|m]; [lia|]. cbn [findall_code_go].
  destruct (match_code_at s) as [[g rest]|] eqn:Hmatch.
  - apply match_code_at_length in Hmatch. f_equal. apply IH; lia.
  - destruct s as [|c s]; [done|]. simpl in Hn, Hm. apply IH; lia.
Qed.

Lemma take_line_length (s l r : string) :
  take_line s = (l, r) → String.length r ≤ String.length s.
Proof.
  revert l. induction s as [|c s IH]; intros l; simpl.
  - by intros [= <- <-].
  - case_bool_decide; [by intros [= <- <-]|].
    destruct (take_line s) as [l' r']. intros [= <- <-].
    specialize (IH _ eq_refl). lia.
Qed.

Lemma scan_body_length (s b r : string) :
  scan_body s = (b, r) → String.length r ≤ String.length s.
Proof.
  revert b. induction s as [|c s IH]; intros b.
  - cbn. by intros [= <- <-].
  - cbn [scan_body]. destruct (_ || _); [by intros [= <- <-]|].
    destruct (scan_body s) as [b' r']. intros [= <- <-].
    specialize (IH _ eq_refl). simpl. lia.
Qed.

Lemma match_heading_at_length (at_start : bool) (s h b rest : string) :
  match_heading_at at_start s = Some (h, b, rest) →
  String.length rest < String.length s.
Proof.
  unfold match_heading_at.
  assert (∀ n a, 0 < n → n ≤ String.length s → a = Str.drop n s →
    match
      (let '(heading, r) := take_line a in
       match r with
       | EmptyString => Some (heading, EmptyString, EmptyString)
       | String _ r' =>
           let '(body, rest) := scan_body r' in Some (heading, body, rest)
       end)
    with
    | Some (_, _, rest) => String.length rest < String.length s
    | None => True
    end) as Hafter.
  { intros n a Hn Hle ->. destruct (take_line (Str.drop n s)) as [l r] eqn:Hl.
    apply take_line_length in Hl. rewrite drop_length in Hl.
    destruct r as [|c r]; [simpl; lia|].
    destruct (scan_body r) as [body rest'] eqn:Hb.
    apply scan_body_length in Hb. simpl in Hl. lia. }
  destruct (at_start && Str.startswith s "# ") eqn:H1.
  - apply andb_true_iff in H1 as [_ H1%startswith_length].
    specialize (Hafter 2 _ ltac:(lia) H1 eq_refl).
    intros Heq. by rewrite Heq in Hafter.
  - destruct (Str.startswith s (LF +:+ "# ")) eqn:H2; [|done].
    apply startswith_length in H2.
    specialize (Hafter 3 _ ltac:(lia) H2 eq_refl).
    intros Heq. by rewrite Heq in Hafter.
Qed.

Lemma findall_heading_go_fuel (n m : nat) (at_start : bool) (s : string) :
  String.length s < n → String.length s < m →
  findall_heading_go n at_start s = findall_heading_go m at_start s.
Proof.
  revert m at_start s.
  induction n as [|n IH]; intros m at_start s Hn Hm; [lia|].
  destruct m as [|m]; [lia|]. cbn [findall_heading_go].
  destruct (match_heading_at at_start s) as [[[h b] rest]|] eqn:Hmatch.
  - apply match_heading_at_length in Hmatch. f_equal. apply IH; lia.
  - destruct s as [|c s]; [done|]. simpl in Hn, Hm. apply IH; lia.
Qed.

(** ** C2: sections that a fenced block already holds *)

Lemma append_loop_map {A B} (f : A → B) (l : list A) (acc : list B) :
  fold_left (λ artifacts x, artifacts ++ [f x]) l acc = acc ++ (f <$> l).
Proof.
  revert acc. induction l as [|x l IH]; intros acc; simpl.
  - by rewrite app_nil_r.
  - by rewrite IH, <-app_assoc.
Qed.

Lemma append_loop_filter {A B} (f : A → B) (keep : A → bool) (l : list A)
    (acc : list B) :
  fold_left (λ artifacts x, if keep x then artifacts ++ [f x] else artifacts)
    l acc
  = acc ++ (f <$> List.filter keep l).
Proof.
  revert acc. induction l as [|x l IH]; intros acc; simpl.
  - by rewrite app_nil_r.
  - rewrite IH. destruct (keep x); [|done]. by rewrite <-app_assoc.
Qed.

Lemma enumerate_snd {A} (l : list A) : (enumerate l).*2 = l.
Proof.
  unfold enumerate. generalize 0.
  induction l as [|x l IH]; intros i; simpl; [done|]. by rewrite IH.
Qed.

Lemma enumerate_from_lookup {A} (l : list A) (i j : nat) (x : A) :
  (j, x) ∈ enumerate_from i l ↔ i ≤ j ∧ l !! (j - i) = Some x.
Proof.
  revert i. induction l as [|y l IH]; intros i; simpl.
  - split; [by intros ?%elem_of_nil|by intros [_ ?]].
  - rewrite elem_of_cons, IH. split.
    + intros [[= -> ->]|[Hle Hl]].
      * split; [done|]. by rewrite Nat.sub_diag.
      * split; [lia|]. by replace (j - i) with (S (j - S i)) by lia.
    + intros [Hle Hl]. destruct (decide (j = i)) as [->|Hne].
      * left. rewrite Nat.sub_diag in Hl. by injection Hl as ->.
      * right. split; [lia|].
        by replace (j - i) with (S (j - S i)) in Hl by lia.
Qed.

Lemma enumerate_lookup {A} (l : list A) (i : nat) (x : A) :
  (i, x) ∈ enumerate l ↔ l !! i = Some x.
Proof.
  unfold enumerate. rewrite enumerate_from_lookup, Nat.sub_0_r.
  split; [by intros [_ ?]|]. split; [lia|done].
Qed.

Lemma existsb_fmap {A B} (f : A → B) (g : B → bool) (l : list A) :
  existsb g (f <$> l) = existsb (λ x, g (f x)) l.
Proof.
  induction l as [|x l IH]; [done|].
  rewrite fmap_cons. cbn [existsb]. by rewrite IH.
Qed.

(** The test of the code, on the raw groups, is the test on the
    contents of the fenced-block artifacts. *)
Lemma dedup_test_on_artifacts (response_text : string)
    (ihc : nat * (string * string)) :
  existsb (λ block, Str.contains block (Str.strip ihc.2.2))
    (findall_code response_text)
  = body_in_code_artifact (code_artifacts response_text) ihc.
Proof.
  unfold body_in_code_artifact, code_artifacts.
  rewrite existsb_fmap.
  rewrite <-(enumerate_snd (findall_code response_text)) at 1.
  rewrite existsb_fmap. simpl.
  induction (enumerate (findall_code response_text)) as [|[i b] l IH];
    simpl; [done|].
  by rewrite IH, contains_strip.
Qed.

Lemma extract_markdown_eq (response_text : string) :
  extract_markdown response_text
  = code_artifacts response_text
    ++ (section_artifact
          <$> List.filter
                (λ ihc, negb (body_in_code_artifact
                                (code_artifacts response_text) ihc))
                (heading_matches response_text)).
Proof.
  unfold extract_markdown. rewrite append_loop_map, app_nil_l.
  rewrite (append_loop_filter section_artifact
             (λ ihc, negb (existsb
                (λ block, Str.contains block (Str.strip ihc.2.2))
                (findall_code response_text)))).
  f_equal. f_equal. unfold heading_matches.
  apply List.filter_ext. intros ihc. by rewrite dedup_test_on_artifacts.
Qed.

(** C2.  The output of [extract_markdown] is the fenced-block artifacts
    followed by the artifacts of the heading matches that are kept, and
    a heading match is dropped exactly when its trimmed body occurs as a
    substring of the content of some fenced-block artifact of the same
    text; otherwise its artifact is returned along with the fenced-block
    artifacts. *)
Theorem extract_markdown_dedup (response_text : string) :
  let blocks := code_artifacts response_text in
  extract_markdown response_text
  = blocks
    ++ (section_artifact
          <$> List.filter (λ ihc, negb (body_in_code_artifact blocks ihc))
                (heading_matches response_text))
  ∧ Forall (λ a, a ∈ extract_markdown response_text) blocks
  ∧ Forall
      (λ ihc,
         section_artifact ihc ∉ extract_markdown response_text
         ↔ ∃ a, a ∈ blocks
                ∧ Str.substr (Str.strip ihc.2.2) (a_content a))
      (heading_matches response_text).
Proof.
  intros blocks. pose proof (extract_markdown_eq response_text) as Heq.
  fold blocks in Heq. split; [done|]. split.
  { apply Forall_forall. intros a Ha. rewrite Heq. apply elem_of_app. by left. }
  apply Forall_forall. intros [i [h c]] Hin.
  assert (body_in_code_artifact blocks (i, (h, c)) = true
          ↔ ∃ a, a ∈ blocks ∧ Str.substr (Str.strip c) (a_content a)) as Hdrop.
  { unfold body_in_code_artifact. rewrite existsb_exists. simpl.
    split; intros (a & Ha & Hc); exists a.
    - split; [by apply list_elem_of_In|by apply contains_spec].
    - split; [by apply list_elem_of_In|by apply contains_spec]. }
  simpl. rewrite <-Hdrop, Heq. clear Hdrop. split.
  - intros Hnot.
    destruct (body_in_code_artifact blocks (i, (h, c))) eqn:Hb; [done|].
    exfalso. apply Hnot. apply elem_of_app. right.
    apply list_elem_of_fmap. exists (i, (h, c)). split; [done|].
    apply list_elem_of_In, List.filter_In. split; [by apply list_elem_of_In|].
    by rewrite Hb.
  - intros Hb [Hcode|Hsec]%elem_of_app.
    + unfold blocks, code_artifacts in Hcode.
      apply list_elem_of_fmap in Hcode as ([j b] & Hab & _). discriminate.
    + apply list_elem_of_fmap in Hsec as ([j [h' c']] & Hab & Hj).
      apply list_elem_of_In, List.filter_In in Hj as [Hj Hkeep].
      apply list_elem_of_In in Hj.
      assert (j = i) as -> by (by injection Hab).
      unfold heading_matches in Hin, Hj.
      apply enumerate_lookup in Hin, Hj.
      rewrite Hin in Hj. injection Hj as <- <-.
      by rewrite Hb in Hkeep.
Qed.

(** The two fixtures of the specification. *)
Example extract_markdown_kept :
  extract_markdown
    ("```markdown" +:+ LF +:+ "A" +:+ LF +:+ "```" +:+ LF +:+ "# B" +:+ LF
     +:+ "C")
  = [ {| a_type := "markdown_code_block"; a_heading := None;
         a_content := "A"; a_index := 0 |};
      {| a_type := "markdown_section"; a_heading := Some "B";
         a_content := "# B" +:+ LF +:+ LF +:+ "C"; a_index := 0 |} ].
Proof. vm_compute. reflexivity. Qed.

Example extract_markdown_dropped :
  extract_markdown
    ("```markdown" +:+ LF +:+ "xAy" +:+ LF +:+ "```" +:+ LF +:+ "# B" +:+ LF
     +:+ "A")
  = [ {| a_type := "markdown_code_block"; a_heading := None;
         a_content := "xAy"; a_index := 0 |} ].
Proof. vm_compute. reflexivity. Qed.

(** ** C3: the base name of an exported artifact *)

Lemma map_chars_length (f : ascii → ascii) (s : string) :
  String.length (Str.map_chars f s) = String.length s.
Proof. induction s as [|c s IH]; simpl; [done|]. by rewrite IH. Qed.

Lemma filter_chars_all (keep : ascii → bool) (s : string) :
  filter_chars keep s = s
  ↔ Forall (λ c, keep c = true) (String.list_ascii_of_string s).
Proof.
  assert (∀ t, String.length (filter_chars keep t) ≤ String.length t) as Hle.
  { induction t as [|c t IH]; simpl; [done|]. destruct (keep c); simpl; lia. }
  induction s as [|c s IH]; simpl.
  - split; [constructor|done].
  - rewrite Forall_cons. destruct (keep c) eqn:Hc.
    + rewrite <-IH. split; [by intros [= ->]|]. by intros [_ ->].
    + split; [|by intros [? _]]. intros Heq.
      pose proof (Hle s) as Hs. rewrite Heq in Hs. simpl in Hs. lia.
Qed.

(** Where every character of the heading is kept, the code and the
    words of the specification agree. *)
Lemma heading_filename_kept (heading : string) :
  Forall (λ c, keep_char c = true) (String.list_ascii_of_string heading) →
  heading_filename heading = heading_filename_spec heading.
Proof.
  intros Hall. unfold heading_filename, heading_filename_spec.
  rewrite (proj2 (filter_chars_all keep_char heading) Hall).
  do 2 f_equal.
  induction heading as [|c s IH]; simpl in *; [done|].
  apply Forall_cons in Hall as [Hc Hall]. rewrite IH by done.
  unfold clean_char. fold (keep_char c). by rewrite Hc.
Qed.

(** C3, as the code has it.  For a section artifact with a heading the
    base name is the heading with every character other than an
    alphanumeric, a space, a hyphen or an underscore replaced by an
    underscore, then spaces replaced by underscores and the text
    lower-cased; for an artifact without a heading it is
    [artifact_<index>]. *)
Theorem filename_of_base_name (art : artifact) :
  (∀ heading,
     a_heading art = Some heading → a_type art = "markdown_section" →
     filename_of art
     = Str.lower
         (Str.replace_char " "%char "_"%char
            (Str.map_chars (λ c, if keep_char c then c else "_"%char)
               heading)))
  ∧ (a_heading art = None →
     filename_of art = "artifact_" +:+ pretty (a_index art)).
Proof.
  unfold filename_of. split.
  - intros heading -> ->. by rewrite bool_decide_eq_true_2 by done.
  - by intros ->.
Qed.

Lemma filename_of_base_name_witness :
  filename_of {| a_type := "markdown_section";
                 a_heading := Some "My Plan: v2.0";
                 a_content := "# My Plan: v2.0"; a_index := 0 |}
  = "my_plan__v2_0"
  ∧ filename_of {| a_type := "markdown_code_block"; a_heading := None;
                   a_content := "x"; a_index := 3 |}
    = "artifact_3".
Proof.
  split.
  - exact (eq_trans
      (proj1 (filename_of_base_name
         {| a_type := "markdown_section"; a_heading := Some "My Plan: v2.0";
            a_content := "# My Plan: v2.0"; a_index := 0 |})
         "My Plan: v2.0" eq_refl eq_refl)
      eq_refl).
  - exact (proj2 (filename_of_base_name
      {| a_type := "markdown_code_block"; a_heading := None;
         a_content := "x"; a_index := 3 |}) eq_refl).
Defined.

(** C3 as stated fails on a heading with a full stop: the code puts an
    underscore where the specification discards the character. *)
Lemma filename_of_base_name_counterexample :
  filename_of {| a_type := "markdown_section"; a_heading := Some "a.b";
                 a_content := "# a.b"; a_index := 0 |}
  = "a_b"
  ∧ heading_filename_spec "a.b" = "ab"
  ∧ filename_of {| a_type := "markdown_section"; a_heading := Some "a.b";
                   a_content := "# a.b"; a_index := 0 |}
    ≠ heading_filename_spec "a.b".
Proof. vm_compute. split; [done|]. split; [done|discriminate]. Qed.

(** A heading on an artifact of another type is not used. *)
Lemma filename_of_other_type (art : artifact) :
  a_type art ≠ "markdown_section" →
  filename_of art = "artifact_" +:+ pretty (a_index art).
Proof.
  intros Hty. unfold filename_of. destruct (a_heading art); [|done].
  by rewrite bool_decide_eq_false_2.
Qed.

(** ** C8: names that do not collide *)

Lemma app_inj_r (s1 s2 t : string) : s1 +:+ t = s2 +:+ t → s1 = s2.
Proof.
  revert s2. induction s1 as [|c s1 IH]; intros s2 Heq.
  - destruct s2 as [|c2 s2]; [done|]. apply (f_equal String.length) in Heq.
    rewrite app_empty_l, app_length_str in Heq. simpl in Heq. lia.
  - destruct s2 as [|c2 s2].
    + apply (f_equal String.length) in Heq.
      rewrite app_empty_l, app_length_str in Heq. simpl in Heq. lia.
    + rewrite !app_cons in Heq. injection Heq as -> Heq. f_equal. by apply IH.
Qed.

Lemma startswith_cons_char (c a : ascii) (s : string) :
  Str.startswith (String c s) (String a EmptyString) = bool_decide (a = c).
Proof. simpl. destruct s; apply andb_true_r. Qed.

(** A relative name is put after a prefix that the folder alone
    decides. *)
Lemma os_path_join_relative (folder : string) :
  ∃ pre, ∀ b, Str.startswith b "/" = false →
              os_path_join folder b = (folder +:+ pre) +:+ b.
Proof.
  destruct (bool_decide (folder = EmptyString)
            || Str.endswith_char folder "/"%char) eqn:Hsep.
  - exists EmptyString. intros b Hb. unfold os_path_join.
    by rewrite Hb, Hsep, app_empty_r.
  - exists "/". intros b Hb. unfold os_path_join.
    by rewrite Hb, Hsep, app_assoc_str.
Qed.

(** The name inside the folder that [candidate] joins. *)
Lemma candidate_name_relative (filename : string) (k : nat) :
  Str.startswith filename "/" = false →
  Str.startswith
    match k with
    | 0 => filename +:+ ".md"
    | S _ => filename +:+ "_" +:+ pretty k +:+ ".md"
    end "/" = false.
Proof.
  intros Hrel.
  destruct filename as [|c f]; destruct k;
    rewrite ?app_empty_l, ?app_cons; try reflexivity;
    rewrite startswith_cons_char in Hrel |- *; exact Hrel.
Qed.

Lemma candidate_inj (folder filename : string) (i j : nat) :
  Str.startswith filename "/" = false →
  candidate folder filename i = candidate folder filename j → i = j.
Proof.
  intros Hrel. unfold candidate.
  destruct (os_path_join_relative folder) as [pre Hpre].
  rewrite !Hpre by by apply candidate_name_relative.
  intros Heq%(inj (String.app _)).
  destruct i as [|i], j as [|j]; apply (inj (String.app _)) in Heq.
  - done.
  - rewrite app_cons in Heq. discriminate.
  - rewrite app_cons in Heq. discriminate.
  - rewrite !app_cons, !app_empty_l in Heq. injection Heq as Heq.
    apply app_inj_r in Heq. by apply (inj pretty) in Heq.
Qed.

Lemma candidate_md (folder filename : string) (k : nat) :
  Str.startswith filename "/" = false →
  has_md_extension (candidate folder filename k).
Proof.
  intros Hrel. unfold candidate, has_md_extension.
  destruct (os_path_join_relative folder) as [pre Hpre].
  rewrite Hpre by by apply candidate_name_relative.
  destruct k.
  - exists ((folder +:+ pre) +:+ filename). by rewrite !app_assoc_str.
  - exists ((folder +:+ pre) +:+ filename +:+ "_" +:+ pretty (S k)).
    by rewrite !app_assoc_str.
Qed.

Lemma heading_char_relative (c : ascii) :
  Str.lower_char
    ((λ c, if decide (c = " "%char) then "_"%char else c) (clean_char c))
  ≠ "/"%char.
Proof.
  destruct c as [[] [] [] [] [] [] [] []]; vm_compute; discriminate.
Qed.

(** No base name starts with a slash. *)
Lemma filename_of_relative (art : artifact) :
  Str.startswith (filename_of art) "/" = false.
Proof.
  assert (∀ h, Str.startswith (heading_filename h) "/" = false) as Hh.
  { intros [|c h]; [done|]. unfold heading_filename.
    cbn [Str.lower Str.replace_char Str.map_chars].
    rewrite startswith_cons_char. apply bool_decide_eq_false_2.
    intros Heq. by eapply heading_char_relative. }
  unfold filename_of. destruct (a_heading art); [|done].
  by case_bool_decide.
Qed.

Section Unique.
Variables (d : gmap string node) (folder filename : string).
Hypothesis Hrel : Str.startswith filename "/" = false.

(** What the loop returns is the first candidate, from the current one
    on, that is not on disk. *)
Lemma unique_filename_least (fuel k : nat) (p : string) :
  unique_filename fuel d folder filename (candidate folder filename k) (S k)
  = Some p →
  ∃ j, k ≤ j
       ∧ p = candidate folder filename j
       ∧ d !! candidate folder filename j = None
       ∧ ∀ i, k ≤ i < j → is_Some (d !! candidate folder filename i).
Proof.
  revert k. induction fuel as [|fuel IH]; intros k; simpl; [done|].
  unfold os_path_exists. case_bool_decide as Hex.
  - rewrite Nat.add_1_r. intros Hrec.
    destruct (IH (S k) Hrec) as (j & Hle & -> & Hnone & Hused).
    exists j. split; [lia|]. split; [done|]. split; [done|].
    intros i Hi. destruct (decide (i = k)) as [->|]; [done|].
    apply Hused. lia.
  - intros [= <-]. exists k. split; [done|]. split; [done|].
    split; [by apply eq_None_not_Some|]. lia.
Qed.

(** As many distinct candidates as are on disk are keys of the disk. *)
Lemma candidates_on_disk (k : nat) :
  (∀ i, i < k → is_Some (d !! candidate folder filename i)) → k ≤ size d.
Proof.
  intros Hused.
  assert (NoDup (candidate folder filename <$> seq 0 k)) as Hnd.
  { apply NoDup_fmap_2_strong; [|apply NoDup_seq].
    intros i j _ _. by apply candidate_inj. }
  trans (length (candidate folder filename <$> seq 0 k)).
  { by rewrite length_fmap, length_seq. }
  rewrite <-(size_list_to_set (C := gset string)) by done.
  rewrite <-size_dom. apply subseteq_size.
  intros p [i [-> Hi%elem_of_seq]]%elem_of_list_to_set%list_elem_of_fmap.
  apply elem_of_dom, Hused. lia.
Qed.

(** The loop ends within the steps it is given. *)
Lemma unique_filename_ends (fuel k : nat) :
  (∀ i, i < k → is_Some (d !! candidate folder filename i)) →
  size d < k + fuel →
  is_Some (unique_filename fuel d folder filename
             (candidate folder filename k) (S k)).
Proof.
  revert k. induction fuel as [|fuel IH]; intros k Hused Hsize.
  - pose proof (candidates_on_disk k Hused). lia.
  - simpl. unfold os_path_exists. case_bool_decide as Hex; [|done].
    rewrite Nat.add_1_r. apply (IH (S k)); [|lia].
    intros i Hi. destruct (decide (i = k)) as [->|]; [done|].
    apply Hused. lia.
Qed.
End Unique.

(** *** Paths in normal form *)

Lemma contains_char_cons (c a : ascii) (s : string) :
  Str.contains (String c s) (String a EmptyString)
  = bool_decide (a = c) || Str.contains s (String a EmptyString).
Proof. cbn [Str.contains]. by rewrite startswith_cons_char. Qed.

Lemma contains_char_app (a : ascii) (s t : string) :
  Str.contains (s +:+ t) (String a EmptyString)
  = Str.contains s (String a EmptyString)
    || Str.contains t (String a EmptyString).
Proof.
  induction s as [|c s IH].
  - by rewrite app_empty_l.
  - by rewrite app_cons, !contains_char_cons, IH, orb_assoc.
Qed.

Lemma parent_path_app (a b : string) :
  Str.contains b "/" = false → parent_path (a +:+ "/" +:+ b) = a.
Proof.
  intros Hb. induction a as [|c a IH].
  - rewrite app_empty_l, app_cons, app_empty_l. cbn [parent_path].
    by rewrite Hb.
  - assert (Str.contains (a +:+ "/" +:+ b) "/" = true) as Hc.
    { rewrite contains_char_app, app_cons, contains_char_cons.
      rewrite bool_decide_eq_true_2 by done. apply orb_true_r. }
    rewrite app_cons. cbn [parent_path]. by rewrite Hc, IH.
Qed.

Lemma parent_path_length (path : string) :
  path ≠ EmptyString →
  String.length (parent_path path) < String.length path.
Proof.
  induction path as [|c p IH]; [done|]. intros _. cbn [parent_path].
  destruct (Str.contains p "/") eqn:Hc; cbn [String.length]; [|lia].
  assert (p ≠ EmptyString) as Hp by (by intros ->).
  specialize (IH Hp). lia.
Qed.

(** A path that ends with a slash has an empty last name. *)
Lemma components_trailing_slash (path : string) :
  Str.endswith_char path "/"%char = true →
  ∃ names, names ≠ [] ∧ components path = names ++ [EmptyString].
Proof.
  induction path as [|c p IH]; [done|]. cbn [Str.endswith_char components].
  destruct p as [|c' p'].
  - intros ->%bool_decide_eq_true. rewrite bool_decide_eq_true_2 by done.
    by exists [EmptyString].
  - intros Hend. destruct (IH Hend) as (names & Hne & ->).
    case_bool_decide.
    + by exists (EmptyString :: names).
    + destruct names as [|name names]; [done|]. by exists (String c name :: names).
Qed.

Lemma relative_path_shape (path : string) :
  relative_path path = true →
  path ≠ EmptyString ∧ Str.endswith_char path "/"%char = false.
Proof.
  intros Hrel. split; [by intros ->|].
  destruct (Str.endswith_char path "/"%char) eqn:Hend; [|done].
  destruct (components_trailing_slash path Hend) as (names & _ & Hc).
  unfold relative_path in Hrel. rewrite Hc, forallb_app in Hrel.
  apply andb_true_iff in Hrel as [_ Hrel]. done.
Qed.

Lemma os_path_join_in (folder name : string) :
  relative_path folder = true →
  Str.startswith name "/" = false →
  os_path_join folder name = folder +:+ "/" +:+ name.
Proof.
  intros [Hne Hend]%relative_path_shape Hname. unfold os_path_join.
  by rewrite Hname, Hend, bool_decide_eq_false_2.
Qed.

(** The slash and the character 0: what a name cannot hold. *)
Lemma pretty_N_go_no_special (a : ascii) (x : N) (s : string) :
  a = "/"%char ∨ a = "000"%char →
  Str.contains (pretty_N_go x s) (String a EmptyString)
  = Str.contains s (String a EmptyString).
Proof.
  intros Ha. revert s. induction (N.lt_wf_0 x) as [x _ IH]; intros s.
  assert (x = 0 ∨ 0 < x)%N as [->|Hx] by lia.
  - by rewrite pretty_N_go_0.
  - rewrite pretty_N_go_step by done. rewrite IH by by apply N.div_lt.
    rewrite contains_char_cons. rewrite bool_decide_eq_false_2; [done|].
    unfold pretty_N_char. destruct Ha as [-> | ->]; by repeat case_match.
Qed.

Lemma pretty_nat_no_special (a : ascii) (n : nat) :
  a = "/"%char ∨ a = "000"%char →
  Str.contains (pretty n) (String a EmptyString) = false.
Proof.
  intros Ha. unfold pretty, pretty_nat, pretty, pretty_N. case_decide.
  - by destruct Ha as [-> | ->].
  - by rewrite pretty_N_go_no_special.
Qed.

Lemma heading_char_special (c : ascii) :
  let c' :=
    Str.lower_char
      ((λ c, if decide (c = " "%char) then "_"%char else c) (clean_char c)) in
  c' ≠ "/"%char ∧ c' ≠ "000"%char.
Proof.
  destruct c as [[] [] [] [] [] [] [] []]; vm_compute; split; discriminate.
Qed.

Lemma parent_path_no_char (a : ascii) (path : string) :
  Str.contains path (String a EmptyString) = false →
  Str.contains (parent_path path) (String a EmptyString) = false.
Proof.
  induction path as [|c p IH]; [done|]. rewrite contains_char_cons.
  intros [Hc Hp]%orb_false_iff. cbn [parent_path].
  destruct (Str.contains p "/"); [|done].
  by rewrite contains_char_cons, Hc, IH.
Qed.

Lemma components_no_char (a : ascii) (path : string) :
  a ≠ "/"%char →
  forallb (λ name, negb (Str.contains name (String a EmptyString)))
    (components path) = true →
  Str.contains path (String a EmptyString) = false.
Proof.
  intros Hslash. induction path as [|c p IH]; [done|]. cbn [components].
  rewrite contains_char_cons. case_bool_decide as Hc.
  - cbn [forallb]. intros [_ Hp]%andb_true_iff.
    rewrite IH by done. subst c. by rewrite bool_decide_eq_false_2.
  - destruct (components p) as [|name names]; cbn [forallb];
      rewrite contains_char_cons, negb_orb;
      intros [[Ha Hn]%andb_true_iff Hp]%andb_true_iff;
      apply negb_true_iff in Ha; rewrite Ha, IH; try done.
    cbn [forallb]. by rewrite Hn, Hp.
Qed.

Lemma relative_path_no_nul (path : string) :
  relative_path path = true → Str.contains path NUL = false.
Proof.
  intros Hrel. apply components_no_char; [done|].
  apply forallb_forall. intros name Hin.
  unfold relative_path in Hrel.
  apply (proj1 (forallb_forall _ _) Hrel) in Hin.
  unfold plain_name in Hin. by apply andb_true_iff in Hin as [_ ?].
Qed.

Lemma startswith_no_slash (s : string) :
  Str.contains s "/" = false → Str.startswith s "/" = false.
Proof.
  destruct s as [|c s]; [done|]. rewrite contains_char_cons.
  rewrite startswith_cons_char. by intros [? _]%orb_false_iff.
Qed.

(** No base name holds a slash or the character 0. *)
Lemma filename_of_no_special (a : ascii) (art : artifact) :
  a = "/"%char ∨ a = "000"%char →
  Str.contains (filename_of art) (String a EmptyString) = false.
Proof.
  intros Ha.
  assert (∀ n : nat,
    Str.contains ("artifact_" +:+ pretty n) (String a EmptyString) = false)
    as Hn.
  { intros n. rewrite contains_char_app, pretty_nat_no_special by done.
    by destruct Ha as [-> | ->]. }
  assert (∀ h, Str.contains (heading_filename h) (String a EmptyString)
               = false) as Hh.
  { unfold heading_filename, Str.lower, Str.replace_char.
    induction h as [|c h IH]; [done|]. cbn [Str.map_chars].
    rewrite contains_char_cons, IH, orb_false_r.
    apply bool_decide_eq_false_2. intros Heq.
    destruct (heading_char_special c) as [H1 H2].
    destruct Ha as [-> | ->]; [by apply H1|by apply H2]. }
  unfold filename_of. destruct (a_heading art); [|done].
  by case_bool_decide.
Qed.

Lemma filename_of_no_slash (art : artifact) :
  Str.contains (filename_of art) "/" = false.
Proof. apply filename_of_no_special. by left. Qed.

(** In a folder in normal form each candidate is the folder, a slash
    and a name without a slash. *)
Lemma candidate_in_folder (a : ascii) (folder filename : string) (k : nat) :
  a = "/"%char ∨ a = "000"%char →
  relative_path folder = true →
  Str.contains filename "/" = false →
  Str.contains filename (String a EmptyString) = false →
  ∃ name, candidate folder filename k = folder +:+ "/" +:+ name
          ∧ Str.contains name "/" = false
          ∧ Str.contains name (String a EmptyString) = false.
Proof.
  intros Ha Hrel Hslash Hf. unfold candidate.
  assert (∀ b, b = "/"%char ∨ b = "000"%char →
    Str.contains filename (String b EmptyString) = false →
    Str.contains
      match k with
      | 0 => filename +:+ ".md"
      | S _ => filename +:+ "_" +:+ pretty k +:+ ".md"
      end (String b EmptyString) = false) as Hname.
  { intros b Hb Hfb.
    destruct k; rewrite !contains_char_app, ?pretty_nat_no_special, Hfb
      by done; by destruct Hb as [-> | ->]. }
  eexists. split; [|split; [apply Hname; [by left|done]|by apply Hname]].
  apply os_path_join_in; [done|].
  apply startswith_no_slash, Hname; [by left|done].
Qed.

Lemma candidate_parent (art : artifact) (folder : string) (k : nat) :
  relative_path folder = true →
  parent_path (candidate folder (filename_of art) k) = folder
  ∧ String.length folder
    < String.length (candidate folder (filename_of art) k)
  ∧ Str.contains (candidate folder (filename_of art) k) NUL = false.
Proof.
  intros Hrel.
  destruct (candidate_in_folder "000" folder (filename_of art) k)
    as (name & -> & Hslash & Hnul);
    [by right|done|apply filename_of_no_slash
    |apply filename_of_no_special; by right|].
  split; [by apply parent_path_app|]. split.
  - rewrite !app_length_str. cbn [String.length]. lia.
  - pose proof (relative_path_no_nul _ Hrel) as Hfolder.
    unfold NUL in *. by rewrite !contains_char_app, Hfolder, Hnul.
Qed.

(** *** The calls of the operating system *)

Lemma os_mkdir_ok (refuses : os_refusal) (name : string) (st : state)
    (out : list string) (d : gmap string node) :
  name ≠ EmptyString → Str.contains name NUL = false →
  d !! name = None → parent_node d name = Some Dir →
  refuses name = None →
  os_mkdir refuses name (World st out d)
  = (inr (), World st out (<[name := Dir]> d)).
Proof.
  intros Hne Hnul Habs Hpar Href.
  unfold os_mkdir, get_fs, put_fs, mbind, M_bind. cbn [fs].
  by rewrite bool_decide_eq_false_2, Hnul, Habs, Hpar, Href.
Qed.

Lemma open_write_ok (refuses : os_refusal) (path text : string) (st : state)
    (out : list string) (d : gmap string node) :
  path ≠ EmptyString → Str.contains path NUL = false →
  d !! path ≠ Some Dir → parent_node d path = Some Dir →
  refuses path = None →
  open_write refuses path text (World st out d)
  = (inr (),
     World st out (<[path := File (Str.universal_newlines text)]> d)).
Proof.
  intros Hne Hnul Hdir Hpar Href.
  unfold open_write, get_fs, put_fs, mbind, M_bind. cbn [fs].
  rewrite bool_decide_eq_false_2, Hnul, Hpar, Href by done.
  by destruct (d !! path) as [[|data]|].
Qed.

Lemma makedirs_test (d : gmap string node) (name : string) :
  negb (bool_decide (parent_path name = EmptyString))
  && negb (os_path_exists d (parent_path name))
  = bool_decide (parent_node d name = None).
Proof.
  unfold parent_node, os_path_exists. case_bool_decide as Hhead; [done|].
  cbn [negb andb]. by destruct (d !! parent_path name) as [n|].
Qed.

Lemma os_makedirs_go_S (fuel : nat) (refuses : os_refusal) (name : string)
    (w : world) :
  os_makedirs_go (S fuel) refuses name w
  = if bool_decide (parent_node (fs w) name = None) then
      match os_makedirs_go fuel refuses (parent_path name) w with
      | (inr _, w') | (inl (FileExistsError _), w') => os_mkdir refuses name w'
      | (inl e, w') => (inl e, w')
      end
    else os_mkdir refuses name w.
Proof.
  cbn [os_makedirs_go]. unfold mbind at 1, M_bind at 1, get_fs at 1.
  unfold mbind at 1, M_bind at 1. rewrite makedirs_test.
  case_bool_decide; [|done]. unfold try_except.
  destruct (os_makedirs_go fuel refuses (parent_path name) w)
    as [[e|[]] w']; [by destruct e|done].
Qed.

Lemma creatable_absent (d : gmap string node) (name : string) :
  creatable d name → d !! name = None.
Proof. by intros []. Qed.

(** The recursions on the directory above use no more steps than they
    are given. *)
Lemma below_file_go_fuel (n m : nat) (d : gmap string node) (path : string) :
  String.length path ≤ n → String.length path ≤ m →
  below_file_go n d path = below_file_go m d path.
Proof.
  revert m path. induction n as [|n IH]; intros [|m] path Hn Hm.
  - done.
  - destruct path; [done|]. cbn in Hn. lia.
  - destruct path; [done|]. cbn in Hm. lia.
  - cbn [below_file_go]. case_bool_decide as Hhead; [done|].
    destruct (d !! parent_path path) as [[|data]|]; [done..|].
    assert (path ≠ EmptyString) as Hne by (by intros ->).
    pose proof (parent_path_length path Hne). apply IH; lia.
Qed.

Lemma os_mkdir_no_fuel (refuses : os_refusal) (name : string) (w : world) :
  (∀ path, refuses path ≠ Some FuelExhausted) →
  (os_mkdir refuses name w).1 ≠ inl FuelExhausted.
Proof.
  intros Href. unfold os_mkdir, get_fs, put_fs, raise, mbind, M_bind.
  case_bool_decide; [done|].
  destruct (Str.contains name NUL); [done|].
  destruct (fs w !! name) as [n|]; [done|].
  destruct (parent_node (fs w) name) as [[|data]|];
    [|unfold absent_error; by repeat case_match..].
  destruct (refuses name) as [e|] eqn:He; [|done].
  cbn. intros [= ->]. by apply (Href name).
Qed.

Lemma os_makedirs_go_ends (refuses : os_refusal) (fuel : nat)
    (name : string) (w : world) :
  (∀ path, refuses path ≠ Some FuelExhausted) →
  String.length name < fuel →
  (os_makedirs_go fuel refuses name w).1 ≠ inl FuelExhausted.
Proof.
  intros Href. revert name w.
  induction fuel as [|fuel IH]; intros name w Hfuel; [lia|].
  rewrite os_makedirs_go_S. case_bool_decide as Hpar.
  - assert (parent_path name ≠ EmptyString) as Hhead.
    { unfold parent_node in Hpar. by case_bool_decide. }
    assert (name ≠ EmptyString) as Hne by (by intros ->).
    pose proof (parent_path_length name Hne).
    specialize (IH (parent_path name) w).
    destruct (os_makedirs_go fuel refuses (parent_path name) w)
      as [[e|[]] w']; [|by apply os_mkdir_no_fuel].
    destruct e; try done; [|by apply os_mkdir_no_fuel].
    cbn in IH. exfalso. apply IH; [lia|done].
  - by apply os_mkdir_no_fuel.
Qed.

(** [os.makedirs] on a path that can be created: it returns, the path
    is a directory afterwards, and what it has made are paths that were
    absent and are no longer than it. *)
Lemma os_makedirs_go_creatable (refuses : os_refusal)
    (d : gmap string node) (name : string) :
  permissive refuses → creatable d name →
  ∀ fuel st out, Str.contains name NUL = false → String.length name < fuel →
    ∃ d',
      os_makedirs_go fuel refuses name (World st out d)
      = (inr (), World st out d')
      ∧ d' !! name = Some Dir
      ∧ (∀ p, is_Some (d !! p) → d' !! p = d !! p)
      ∧ (∀ p, String.length name < String.length p → d' !! p = d !! p).
Proof.
  intros Hperm Hc.
  induction Hc as [name Hne Habs Hpar|name Habs Hpar Hc IH];
    intros [|fuel] st out Hnul Hfuel; try lia;
    rewrite os_makedirs_go_S; cbn [fs].
  - rewrite bool_decide_eq_false_2 by by rewrite Hpar.
    rewrite os_mkdir_ok by done. exists (<[name := Dir]> d).
    split; [done|]. split; [by rewrite lookup_insert_eq|].
    split; intros p Hp; rewrite lookup_insert_ne; try done.
    + intros <-. rewrite Habs in Hp. by destruct Hp.
    + intros <-. lia.
  - rewrite bool_decide_eq_true_2 by done.
    assert (parent_path name ≠ EmptyString ∧ d !! parent_path name = None)
      as [Hhead Hnone].
    { unfold parent_node in Hpar. by case_bool_decide. }
    assert (name ≠ EmptyString) as Hne by (by intros ->).
    pose proof (parent_path_length name Hne) as Hlen.
    destruct (IH fuel st out) as (d1 & -> & Hdir & Hold & Hlong);
      [by apply parent_path_no_char|lia|].
    rewrite os_mkdir_ok; [|done|done|by rewrite Hlong|
      by unfold parent_node; rewrite bool_decide_eq_false_2|done].
    exists (<[name := Dir]> d1).
    split; [done|]. split; [by rewrite lookup_insert_eq|].
    split; intros p Hp; rewrite lookup_insert_ne.
    + by apply Hold.
    + intros <-. rewrite Habs in Hp. by destruct Hp.
    + apply Hlong. lia.
    + intros <-. lia.
Qed.

(** One call of [save_artifact] into a usable folder: it returns the
    first candidate that is not on disk and writes the content there;
    the folder is a directory afterwards; what was on disk is kept, and
    so is what a path longer than the folder's holds. *)
Lemma save_artifact_spec (refuses : os_refusal) (art : artifact)
    (folder : string) (w : world) :
  permissive refuses →
  usable_folder (fs w) folder →
  let cand := candidate folder (filename_of art) in
  ∃ k w',
    save_artifact refuses art folder w = (inr (cand k), w')
    ∧ fs w !! cand k = None
    ∧ (∀ i, i < k → is_Some (fs w !! cand i))
    ∧ fs w' !! cand k
      = Some (File (Str.universal_newlines (a_content art)))
    ∧ fs w' !! folder = Some Dir
    ∧ (∀ p, is_Some (fs w !! p) → fs w' !! p = fs w !! p)
    ∧ (∀ p, p ≠ cand k → String.length folder < String.length p →
            fs w' !! p = fs w !! p)
    ∧ conversation_state w' = conversation_state w
    ∧ stdout w' = stdout w.
Proof.
  intros Hperm [Hnorm Huse] cand.
  pose proof (filename_of_no_slash art) as Hslash.
  pose proof (startswith_no_slash _ Hslash) as Hrel.
  destruct w as [st out d]. cbn [fs conversation_state stdout] in *.
  assert (∃ d1,
    (if negb (os_path_exists d folder) then os_makedirs refuses folder
     else mret ()) (World st out d) = (inr (), World st out d1)
    ∧ d1 !! folder = Some Dir
    ∧ (∀ p, is_Some (d !! p) → d1 !! p = d !! p)
    ∧ (∀ p, String.length folder < String.length p → d1 !! p = d !! p))
    as (d1 & Hmk & Hdir & Hold & Hlong).
  { unfold os_path_exists. destruct Huse as [Hdir|Hc].
    - rewrite bool_decide_eq_true_2 by by rewrite Hdir. by exists d.
    - rewrite bool_decide_eq_false_2
        by (rewrite (creatable_absent _ _ Hc); by intros [? ?]).
      cbn [negb]. unfold os_makedirs.
      apply os_makedirs_go_creatable;
        [done|done|by apply relative_path_no_nul|lia]. }
  assert (∀ i, parent_path (cand i) = folder
               ∧ String.length folder < String.length (cand i)
               ∧ Str.contains (cand i) NUL = false) as Hcand.
  { intros i. by apply candidate_parent. }
  destruct (unique_filename_ends d1 folder (filename_of art) Hrel
              (S (size d1)) 0) as [p Hp]; [lia|lia|].
  fold cand in Hp.
  pose proof Hp as Hleast.
  apply unique_filename_least in Hleast as (k & _ & -> & Hnone & Hused).
  fold cand in Hnone, Hused.
  destruct (Hcand k) as (Hpar & Hlen & Hnul).
  exists k, (World st out
               (<[cand k := File (Str.universal_newlines (a_content art))]>
                  d1)).
  split.
  { unfold save_artifact. unfold mbind at 1, M_bind at 1, get_fs at 1.
    unfold mbind at 1, M_bind at 1. cbn [fs]. rewrite Hmk.
    cbn zeta. unfold mbind at 1, M_bind at 1, get_fs at 1. cbn [fs].
    change (os_path_join folder (filename_of art +:+ ".md")) with (cand 0).
    rewrite Hp. unfold mbind at 1, M_bind at 1.
    change (candidate folder (filename_of art) k) with (cand k).
    rewrite open_write_ok; [done| |done|by rewrite Hnone| |done].
    - intros Heq. rewrite Heq in Hlen. cbn in Hlen. lia.
    - unfold parent_node. rewrite Hpar.
      rewrite bool_decide_eq_false_2; [done|].
      intros ->. by apply relative_path_shape in Hnorm as [? _]. }
  cbn [fs conversation_state stdout].
  split; [by rewrite <-Hlong|].
  split; [intros i Hi; destruct (Hcand i) as (_ & Hi' & _);
          rewrite <-Hlong by done; apply Hused; lia|].
  split; [by rewrite lookup_insert_eq|].
  split.
  { rewrite lookup_insert_ne; [done|]. intros Heq. rewrite Heq in Hlen. lia. }
  split.
  { intros q Hq. rewrite lookup_insert_ne; [by apply Hold|].
    intros <-. rewrite <-Hlong, Hnone in Hq by done. by destruct Hq. }
  split; [|done].
  intros q Hq1 Hq2. rewrite lookup_insert_ne by done. by apply Hlong.
Qed.

(** ** Consequences of [picks] *)









(** The same run into a folder that already holds [plan.md]. *)
Example export_run_taken :
  let art i :=
    {| a_type := "markdown_section"; a_heading := Some "Plan";
       a_content := "# Plan"; a_index := i |} in
  (export_run (λ _, None) [art 0; art 1] "out"
     (World (empty_state "t0") []
        (<["out/plan.md" := File "old"]> (<["out" := Dir]> ∅)))).1
  = inr ["out/plan_1.md"; "out/plan_2.md"].
Proof. vm_compute. reflexivity. Qed.

(** Where the folder cannot be used the call raises and writes nothing:
    the empty path cannot be created, a regular file holds no entry, and
    a folder below a regular file cannot be created. *)
Example save_artifact_unusable_folder :
  let art :=
    {| a_type := "markdown_section"; a_heading := Some "Plan";
       a_content := "# Plan"; a_index := 0 |} in
  let w := World (empty_state "t0") [] (<["notes" := File "x"]> ∅) in
  save_artifact (λ _, None) art EmptyString w
  = (inl (FileNotFoundError EmptyString), w)
  ∧ save_artifact (λ _, None) art "notes" w
    = (inl (NotADirectoryError "notes/plan.md"), w)
  ∧ save_artifact (λ _, None) art "notes/out" w
    = (inl (NotADirectoryError "notes/out"), w).
Proof. vm_compute. repeat split. Qed.

(** A folder with missing directories above it is made with them. *)
Example save_artifact_nested_folder :
  let art :=
    {| a_type := "markdown_section"; a_heading := Some "Plan";
       a_content := "# Plan"; a_index := 0 |} in
  ∃ w',
    save_artifact (λ _, None) art "a/b" (World (empty_state "t0") [] ∅)
    = (inr "a/b/plan.md", w')
    ∧ fs w' !! "a" = Some Dir
    ∧ fs w' !! "a/b" = Some Dir
    ∧ fs w' !! "a/b/plan.md" = Some (File "# Plan").
Proof. eexists. vm_compute. repeat split. Qed.

(** ** C5: the search and its limit *)

Lemma scan_artifacts_spec (term : string) (limit : Z) (conv_id : string)
    (docs : list (string * gmap string value))
    (results : list (gmap string value)) (reads : list read)
    (flag : bool) (results' : list (gmap string value))
    (reads' : list read) :
  (Z.of_nat (length results) < limit)%Z →
  scan_artifacts term limit conv_id docs results reads
  = inr (flag, results', reads') →
  ∃ found scanned,
    results' = results ++ found
    ∧ reads' = reads ++ (ReadArtifact conv_id <$> scanned.*1)
    ∧ scanned `prefix_of` docs
    ∧ Forall (content_matches term) found
    ∧ if flag
      then Z.of_nat (length results') = limit
           ∧ ∃ art_id r, last reads' = Some (ReadArtifact conv_id art_id)
                         ∧ last results' = Some r
                         ∧ found_in conv_id art_id r
      else scanned = docs ∧ (Z.of_nat (length results') < limit)%Z.
Proof.
  revert results reads.
  induction docs as [|[art_id doc] docs IH]; intros results reads Hlt Hrun.
  - injection Hrun as <- <- <-. exists [], [].
    rewrite !app_nil_r. by repeat split.
  - cbn [scan_artifacts] in Hrun.
    assert (∀ results1 found,
      (Z.of_nat (length results1) < limit)%Z →
      results1 = results ++ found →
      Forall (content_matches term) found →
      scan_artifacts term limit conv_id docs results1
        (reads ++ [ReadArtifact conv_id art_id])
      = inr (flag, results', reads') →
      ∃ found scanned,
        results' = results ++ found
        ∧ reads' = reads ++ (ReadArtifact conv_id <$> scanned.*1)
        ∧ scanned `prefix_of` (art_id, doc) :: docs
        ∧ Forall (content_matches term) found
        ∧ if flag
          then Z.of_nat (length results') = limit
               ∧ ∃ art_id r, last reads' = Some (ReadArtifact conv_id art_id)
                             ∧ last results' = Some r
                             ∧ found_in conv_id art_id r
          else scanned = (art_id, doc) :: docs
               ∧ (Z.of_nat (length results') < limit)%Z) as Hnext.
    { intros results1 found1 Hlt1 -> Hf1 Hrec.
      destruct (IH _ _ Hlt1 Hrec)
        as (found & scanned & -> & -> & Hpre & Hf & Hflag).
      exists (found1 ++ found), ((art_id, doc) :: scanned).
      split; [by rewrite app_assoc|].
      split; [by rewrite <-app_assoc|].
      split; [by apply prefix_cons|].
      split; [by apply Forall_app|].
      destruct flag; [done|]. destruct Hflag as [-> ?]. done. }
    destruct (<["id" := VStr art_id]> doc !! "content") as [[text| | |b]|] eqn:Hc;
      [|done|done|done|].
    + destruct (Str.contains (Str.lower text) term) eqn:Hm.
      * set (r := <["conversation_id" := VStr conv_id]>
                    (<["id" := VStr art_id]> doc)) in *.
        assert (content_matches term r) as Hr.
        { exists text. split; [|done]. unfold r. by rewrite lookup_insert_ne. }
        case_bool_decide as Hlim.
        -- injection Hrun as <- <- <-.
           exists [r], [(art_id, doc)].
           split; [done|]. split; [done|].
           split; [by apply prefix_cons, prefix_nil|].
           split; [by constructor|].
           rewrite length_app in Hlim |- *. simpl in Hlim |- *.
           split; [lia|]. exists art_id, r.
           rewrite !last_snoc. split; [done|]. split; [done|].
           unfold found_in, r. split.
           ++ rewrite lookup_insert_ne by done. apply lookup_insert_eq.
           ++ apply lookup_insert_eq.
        -- apply (Hnext (results ++ [r]) [r]); [lia|done|by constructor|done].
      * apply (Hnext results []);
          [done|by rewrite app_nil_r|constructor|done].
    + apply (Hnext results []); [done|by rewrite app_nil_r|constructor|done].
Qed.

Lemma scan_conversations_spec (term : string) (limit : Z)
    (convs : collection) (results : list (gmap string value))
    (reads : list read) (results' : list (gmap string value))
    (reads' : list read) :
  (Z.of_nat (length results) < limit)%Z →
  scan_conversations term limit convs results reads = inr (results', reads') →
  ∃ found scanned,
    results' = results ++ found
    ∧ reads' = reads ++ scanned
    ∧ scanned `prefix_of` full_scan convs
    ∧ Forall (content_matches term) found
    ∧ (Z.of_nat (length results') ≤ limit)%Z
    ∧ ((Z.of_nat (length results') < limit)%Z → scanned = full_scan convs)
    ∧ (Z.of_nat (length results') = limit →
       ∃ conv_id art_id r,
         last reads' = Some (ReadArtifact conv_id art_id)
         ∧ last results' = Some r
         ∧ found_in conv_id art_id r).
Proof.
  revert results reads.
  induction convs as [|[conv_id docs] convs IH]; intros results reads Hlt Hrun.
  - injection Hrun as <- <-. exists [], []. rewrite !app_nil_r.
    split; [done|]. split; [done|]. split; [done|]. split; [done|].
    split; [lia|]. split; [done|lia].
  - cbn [scan_conversations full_scan] in Hrun |- *.
    destruct (scan_artifacts term limit conv_id docs results
                (reads ++ [ReadConversation conv_id]))
      as [e|[[flag results1] reads1]] eqn:Hin; [done|].
    apply scan_artifacts_spec in Hin
      as (found1 & scanned1 & -> & -> & [rest ->] & Hf1 & Hflag); [|done].
    destruct flag.
    + injection Hrun as <- <-. destruct Hflag as [Hlim Hlast].
      exists found1, (ReadConversation conv_id
                      :: (ReadArtifact conv_id <$> scanned1.*1)).
      split; [done|]. split; [by rewrite <-app_assoc|].
      split.
      { apply prefix_cons. rewrite fmap_app, fmap_app, <-app_assoc.
        by apply prefix_app_r. }
      split; [done|]. split; [lia|]. split; [lia|].
      intros _. destruct Hlast as (art_id & r & ? & ? & ?).
      by exists conv_id, art_id, r.
    + destruct Hflag as [Hall Hlt1].
      rewrite <-(app_nil_r scanned1) in Hall at 1.
      apply app_inv_head in Hall as <-. rewrite app_nil_r.
      destruct (IH _ _ Hlt1 Hrun)
        as (found2 & scanned2 & -> & -> & Hpre & Hf2 & Hle & Hfull & Hstop).
      exists (found1 ++ found2),
        (ReadConversation conv_id
         :: (ReadArtifact conv_id <$> scanned1.*1) ++ scanned2).
      split; [by rewrite app_assoc|].
      split; [by rewrite <-!app_assoc|].
      split; [by apply prefix_cons, prefix_app|].
      split; [by apply Forall_app|].
      split; [done|]. split; [|done].
      intros Hlt2. by rewrite Hfull.
Qed.

(** For a limit of at least one the search returns at most [limit]
    records, each matching the term without regard to case; its reads
    are an initial part of the scan of the whole store, which is the
    whole scan when fewer than [limit] records were found and ends with
    the document of the last record when [limit] were found. *)
Lemma search_artifacts_by_content_limit (store : collection)
    (search_term : string) (limit : Z) (results : list (gmap string value))
    (reads : list read) :
  (1 ≤ limit)%Z →
  search_artifacts_by_content store search_term limit = inr (results, reads) →
  (Z.of_nat (length results) ≤ limit)%Z
  ∧ Forall (content_matches (Str.lower search_term)) results
  ∧ reads `prefix_of` full_scan store
  ∧ ((Z.of_nat (length results) < limit)%Z → reads = full_scan store)
  ∧ (Z.of_nat (length results) = limit →
     ∃ conv_id art_id r,
       last reads = Some (ReadArtifact conv_id art_id)
       ∧ last results = Some r
       ∧ found_in conv_id art_id r).
Proof.
  intros Hlim Hrun. unfold search_artifacts_by_content in Hrun.
  apply scan_conversations_spec in Hrun
    as (found & scanned & -> & -> & Hpre & Hf & Hle & Hfull & Hstop);
    [|simpl; lia].
  rewrite !app_nil_l in *. by repeat split.
Qed.

(** C5, on the code.  With a limit of zero the first matching document
    is appended before the limit is looked at, so one record is
    returned. *)
Theorem search_artifacts_by_content_limit_zero :
  let doc : gmap string value :=
    <["content" := VStr "Foo bar"]> (<["index" := VInt 0]> ∅) in
  let store : collection := [("c1", [("a1", doc); ("a2", doc)])] in
  search_artifacts_by_content store "foo" 0
  = inr ([ <["conversation_id" := VStr "c1"]> (<["id" := VStr "a1"]> doc) ],
         [ ReadConversation "c1"; ReadArtifact "c1" "a1" ])
  ∧ ∃ results reads,
      search_artifacts_by_content store "foo" 0 = inr (results, reads)
      ∧ ¬ (Z.of_nat (length results) ≤ 0)%Z.
Proof.
  intros doc store.
  assert (search_artifacts_by_content store "foo" 0
          = inr ([ <["conversation_id" := VStr "c1"]>
                     (<["id" := VStr "a1"]> doc) ],
                 [ ReadConversation "c1"; ReadArtifact "c1" "a1" ])) as Hrun
    by (vm_compute; reflexivity).
  split; [exact Hrun|]. eexists _, _. split; [exact Hrun|]. simpl. lia.
Qed.

(** With a limit of one the same search stops at the same document. *)
Example search_artifacts_by_content_limit_one :
  let doc : gmap string value :=
    <["content" := VStr "Foo bar"]> (<["index" := VInt 0]> ∅) in
  let store : collection := [("c1", [("a1", doc); ("a2", doc)])] in
  search_artifacts_by_content store "foo" 1
  = inr ([ <["conversation_id" := VStr "c1"]> (<["id" := VStr "a1"]> doc) ],
         [ ReadConversation "c1"; ReadArtifact "c1" "a1" ]).
Proof. vm_compute. reflexivity. Qed.

(** * Further properties of the notebook *)

(** ** Reading and sharing files *)

Lemma read_file_content_eq (file_path : string) (w : world) :
  read_file_content file_path w = (inr (file_text (fs w) file_path), w).
Proof.
  unfold read_file_content, try_except, open_read, get_fs, file_text,
    mbind, M_bind, mret, M_ret, raise.
  by destruct (fs w !! file_path) as [[|data]|].
Qed.







Lemma include_file_in_prompt_eq (file_path : string)
    (max_length : option Z) (w : world) :
  include_file_in_prompt file_path max_length w
  = (inr (file_block file_path
            match max_length with
            | Some n =>
                if bool_decide
                     (n ≠ 0
                      ∧ n < Z.of_nat
                              (String.length (file_text (fs w) file_path)))%Z
                then Str.slice_to n (file_text (fs w) file_path)
                     +:+ LF +:+ "...(truncated)..."
                else file_text (fs w) file_path
            | None => file_text (fs w) file_path
            end), w).
Proof.
  unfold include_file_in_prompt. unfold mbind at 1, M_bind at 1.
  by rewrite read_file_content_eq.
Qed.



Lemma share_files_loop_eq (file_paths : list string) (prompt : string)
    (w : world) :
  share_files_loop file_paths prompt w
  = (inr (prompt
          +:+ Str.concat
                ((λ p, file_block p (file_text (fs w) p)) <$> file_paths)),
     {| conversation_state :=
          set_shared_files
            (track_all file_paths (shared_files (conversation_state w)))
            (conversation_state w);
        stdout := stdout w;
        fs := fs w |}).
Proof.
  revert prompt w. induction file_paths as [|p ps IH]; intros prompt w.
  - cbn. rewrite app_empty_r. by destruct w as [[] ? ?].
  - cbn [share_files_loop]. unfold mbind at 1, M_bind at 1.
    rewrite include_file_in_prompt_eq.
    unfold mbind at 1, M_bind at 1, modify_state, get_state, put_state.
    unfold mbind at 1, M_bind at 1. cbn beta iota.
    rewrite IH. cbn. by rewrite app_assoc_str.
Qed.

Lemma track_all_prefix (file_paths shared : list string) :
  shared `prefix_of` track_all file_paths shared.
Proof.
  revert shared. induction file_paths as [|p ps IH]; intros shared; [done|].
  cbn. etrans; [|apply IH]. unfold track_shared_file.
  case_bool_decide; [done|]. by apply prefix_app_r.
Qed.

Lemma track_all_NoDup (file_paths shared : list string) :
  NoDup shared → NoDup (track_all file_paths shared).
Proof.
  revert shared. induction file_paths as [|p ps IH]; intros shared Hnd; [done|].
  cbn. by apply IH, track_shared_file_NoDup.
Qed.

Lemma track_all_elem (file_paths shared : list string) (p : string) :
  p ∈ track_all file_paths shared ↔ p ∈ shared ∨ p ∈ file_paths.
Proof.
  revert shared. induction file_paths as [|q ps IH]; intros shared.
  - cbn. rewrite elem_of_nil. tauto.
  - cbn [track_all fold_left].
    fold (track_all ps (track_shared_file q shared)).
    rewrite IH, elem_of_cons. unfold track_shared_file.
    case_bool_decide as Hq.
    + split; [tauto|]. intros [?|[->|?]]; auto.
    + rewrite elem_of_app, list_elem_of_singleton. tauto.
Qed.

(** However it ends, a call of [ask_claude] leaves the state as it was
    or with the pair of the exchange appended, and leaves the disk. *)
Lemma ask_claude_state (create : sdk_call) (now prompt : string)
    (include_history include_summary : bool) (max_tokens : Z) (w : world) :
  let st := conversation_state w in
  let w' :=
    (ask_claude create now prompt include_history include_summary
       max_tokens w).2 in
  (conversation_state w' = st
   ∨ ∃ text,
       conversation_state w'
       = {| messages :=
              messages st ++ [ {| role := "user"; content := prompt |};
                               {| role := "assistant"; content := text |} ];
            summary := summary st;
            shared_files := shared_files st;
            last_updated := now |})
  ∧ fs w' = fs w.
Proof.
  intros st w'. unfold w'.
  destruct (create (full_prompt_of st prompt include_history include_summary)
              max_tokens) as [e|resp] eqn:Hc.
  - destruct (ask_claude_failure _ now _ _ _ _ _ _ Hc) as [line ->].
    split; [by left|done].
  - destruct (ask_claude_success _ now _ _ _ _ _ _ Hc) as [line ->].
    split; [right; by eexists|done].
Qed.

(** X3.  [share_files_with_claude] records every path it was given in
    [shared_files], whether or not the model call then succeeds: the
    ledger afterwards is the old one followed by the new paths in the
    order first seen, holds each given path, and has no duplicate if it
    had none. *)
Theorem share_files_with_claude_ledger (create : sdk_call) (now : string)
    (file_paths : list string) (prompt_prefix prompt_suffix : string)
    (w : world) :
  let w' :=
    (share_files_with_claude create now file_paths prompt_prefix
       prompt_suffix w).2 in
  let shared := shared_files (conversation_state w) in
  let shared' := shared_files (conversation_state w') in
  shared' = track_all file_paths shared
  ∧ shared `prefix_of` shared'
  ∧ Forall (λ p, p ∈ shared') file_paths
  ∧ (NoDup shared → NoDup shared').
Proof.
  intros w' shared shared'.
  assert (shared' = track_all file_paths shared) as Heq.
  { unfold shared', w', share_files_with_claude.
    unfold mbind at 1, M_bind at 1. rewrite share_files_loop_eq.
    match goal with
    | |- context [ask_claude ?c ?n ?p ?h ?s ?m ?w0] =>
        destruct (ask_claude_state c n p h s m w0) as [[-> | [t ->]] _]
    end; done. }
  rewrite Heq. split; [done|]. split; [apply track_all_prefix|].
  split; [|apply track_all_NoDup].
  apply Forall_forall. intros p Hp. apply track_all_elem. by right.
Qed.




(** ** The summary *)

(** X25.  With fewer than two messages, the empty history included, a
    summary is not attempted: the model is not called (the outcome is
    the same whatever the SDK would do), [None] is returned, one line is
    printed, and the state, its summary included, and the disk are as
    before. *)
Theorem generate_conversation_summary_short_history
    (create create' : sdk_call) (now now' : string) (w : world) :
  length (messages (conversation_state w)) < 2 →
  ∃ w',
    generate_conversation_summary create now w = (inr None, w')
    ∧ generate_conversation_summary create' now' w = (inr None, w')
    ∧ conversation_state w' = conversation_state w
    ∧ stdout w' = stdout w ++ ["Not enough conversation to summarize."]
    ∧ fs w' = fs w.
Proof.
  intros Hlen. eexists.
  split; [by apply generate_conversation_summary_too_short|].
  split; [by apply generate_conversation_summary_too_short|done].
Qed.

Lemma generate_conversation_summary_short_history_witness :
  generate_conversation_summary (λ _ _, inl (APIError "not called")) "t1"
    (World (empty_state "t0") [] ∅)
  = (inr None,
     World (empty_state "t0") ["Not enough conversation to summarize."] ∅).
Proof.
  destruct (generate_conversation_summary_short_history
              (λ _ _, inl (APIError "not called"))
              (λ _ _, inl (APIError "not called")) "t1" "t1"
              (World (empty_state "t0") [] ∅) (Nat.lt_0_succ 1))
    as (w' & Hrun & _ & Hst & Hout & Hfs).
  rewrite Hrun. f_equal. destruct w' as [st out d]. cbn in *. by subst.
Defined.

(** A summary whose model call answers. *)
Lemma generate_conversation_summary_success (create : sdk_call)
    (now : string) (w : world) (resp : response) :
  let st := conversation_state w in
  2 ≤ length (messages st) →
  create (summary_request (messages st)) 1000%Z = inr resp →
  ∃ lines,
    generate_conversation_summary create now w
    = (inr (Some (text_content_of resp)),
       {| conversation_state :=
            {| messages :=
                 messages st
                 ++ [ {| role := "user";
                         content := summary_request (messages st) |};
                      {| role := "assistant";
                         content := text_content_of resp |} ];
               summary := text_content_of resp;
               shared_files := shared_files st;
               last_updated := now |};
          stdout := stdout w ++ lines;
          fs := fs w |}).
Proof.
  intros st Hlen Hresp. unfold generate_conversation_summary.
  unfold mbind at 1, M_bind at 1, get_state. fold st.
  rewrite bool_decide_eq_false_2 by lia.
  rewrite render_loop_concat, app_empty_l.
  fold (summary_request (messages st)).
  destruct (ask_claude_success create now (summary_request (messages st))
              false false 1000 w resp) as [line Hask].
  { by rewrite full_prompt_of_plain. }
  unfold mbind at 1, M_bind at 1. rewrite Hask.
  exists [line; "Conversation summary updated."].
  unfold modify_state, get_state, put_state, print, mbind, M_bind,
    mret, M_ret.
  cbn. by rewrite <-app_assoc.
Qed.

(** X6.  When the model call of a summary raises, the exception goes on
    to the caller and neither the summary nor the messages change. *)
Theorem generate_conversation_summary_failure (create : sdk_call)
    (now : string) (w : world) (e : exn) :
  let st := conversation_state w in
  2 ≤ length (messages st) →
  create (summary_request (messages st)) 1000%Z = inl e →
  ∃ w',
    generate_conversation_summary create now w = (inl e, w')
    ∧ conversation_state w' = st
    ∧ fs w' = fs w.
Proof.
  intros st Hlen Herr. unfold generate_conversation_summary.
  unfold mbind at 1, M_bind at 1, get_state. fold st.
  rewrite bool_decide_eq_false_2 by lia.
  rewrite render_loop_concat, app_empty_l.
  fold (summary_request (messages st)).
  destruct (ask_claude_failure create now (summary_request (messages st))
              false false 1000 w e) as [line Hask].
  { by rewrite full_prompt_of_plain. }
  unfold mbind at 1, M_bind at 1. rewrite Hask.
  eexists. split; [reflexivity|]. by cbn.
Qed.

Lemma generate_conversation_summary_failure_witness :
  let st :=
    {| messages := [ {| role := "user"; content := "Hi" |};
                     {| role := "assistant"; content := "Hello." |} ];
       summary := "old summary"; shared_files := [];
       last_updated := "t0" |} in
  ∃ w',
    generate_conversation_summary (λ _ _, inl (APIError "overloaded")) "t1"
      (World st [] ∅)
    = (inl (APIError "overloaded"), w')
    ∧ conversation_state w' = st.
Proof.
  intros st.
  destruct (generate_conversation_summary_failure
              (λ _ _, inl (APIError "overloaded")) "t1" (World st [] ∅)
              (APIError "overloaded") (le_n 2) eq_refl)
    as (w' & Hrun & Hst & _).
  exists w'. by split.
Defined.

Lemma concat_app_str (l k : list string) :
  Str.concat (l ++ k) = Str.concat l +:+ Str.concat k.
Proof.
  induction l as [|s l IH]; simpl; [done|]. by rewrite IH, app_assoc_str.
Qed.

Lemma substr_skip (a s t : string) :
  Str.substr t s → Str.substr t (a +:+ s).
Proof.
  intros (l & r & ->). exists (a +:+ l), r. by rewrite app_assoc_str.
Qed.

Lemma summary_prompt_of_substr (recent_convo : string) :
  Str.substr recent_convo (summary_prompt_of recent_convo).
Proof.
  unfold summary_prompt_of. do 15 apply substr_skip.
  by exists EmptyString, LF.
Qed.

(** X7.  A summary request holds the whole history, whatever its
    length, and so holds every earlier summary request: after a summary
    was recorded, the request of the next summary contains the request
    of that one as a substring. *)
Theorem summary_request_nests (create : sdk_call) (now : string)
    (w : world) (resp : response) :
  let st := conversation_state w in
  2 ≤ length (messages st) →
  create (summary_request (messages st)) 1000%Z = inr resp →
  ∃ w',
    (generate_conversation_summary create now w).2 = w'
    ∧ Forall (λ msg, Str.substr (render_message msg)
                       (summary_request (messages (conversation_state w'))))
        (messages (conversation_state w'))
    ∧ Str.substr (summary_request (messages st))
        (summary_request (messages (conversation_state w'))).
Proof.
  intros st Hlen Hresp.
  destruct (generate_conversation_summary_success create now w resp
              Hlen Hresp) as [lines Hrun].
  eexists. split; [by rewrite Hrun|]. cbn [conversation_state messages].
  assert (∀ msgs msg, msg ∈ msgs →
            Str.substr (render_message msg) (summary_request msgs)) as Hin.
  { intros msgs msg [l1 [l2 ->]]%list_elem_of_split.
    eapply substr_trans; [|apply summary_prompt_of_substr].
    rewrite fmap_app, fmap_cons, concat_app_str. cbn [Str.concat].
    by exists (Str.concat (render_message <$> l1)),
              (Str.concat (render_message <$> l2)). }
  split; [apply Forall_forall; intros msg Hmsg; by apply Hin|].
  eapply substr_trans;
    [|apply (Hin _ {| role := "user";
                      content := summary_request (messages st) |})].
  - unfold render_message. cbn [role content].
    rewrite bool_decide_eq_true_2 by done.
    by exists "Human: ", (LF +:+ LF).
  - apply elem_of_app. right. by left.
Qed.

Lemma summary_request_nests_witness :
  let st :=
    {| messages := [ {| role := "user"; content := "Hi" |};
                     {| role := "assistant"; content := "Hello." |} ];
       summary := EmptyString; shared_files := [];
       last_updated := "t0" |} in
  let resp :=
    {| response_id := "msg_05"; response_model := "claude";
       response_content := [ {| block_type := "text";
                                block_text := "A greeting." |} ] |} in
  let w' :=
    (generate_conversation_summary (λ _ _, inr resp) "t1" (World st [] ∅)).2
  in
  Str.substr (summary_request (messages st))
    (summary_request (messages (conversation_state w'))).
Proof.
  intros st resp w'.
  destruct (summary_request_nests (λ _ _, inr resp) "t1" (World st [] ∅)
              resp (le_n 2) eq_refl) as (w1 & Hw & _ & Hsub).
  unfold w'. rewrite Hw. exact Hsub.
Defined.

(** ** A session *)





(** ** The text of a response *)

(** X8.  The text that [ask_claude] records and returns is the texts of
    the blocks of type [text], in their order, joined without a
    separator; blocks of any other type add nothing, and a response
    without a text block gives the empty text. *)
Theorem text_content_of_text_blocks (r : response) :
  text_content_of r
  = Str.concat
      (block_text
         <$> filter (λ b, block_type b = "text") (response_content r))
  ∧ (Forall (λ b, block_type b ≠ "text") (response_content r) →
     text_content_of r = EmptyString).
Proof.
  assert (∀ blocks acc,
    fold_left
      (λ text_content b,
         if bool_decide (block_type b = "text")
         then text_content +:+ block_text b else text_content)
      blocks acc
    = acc +:+ Str.concat
                (block_text <$> filter (λ b, block_type b = "text") blocks))
    as Hloop.
  { induction blocks as [|b blocks IH]; intros acc.
    - cbn. by rewrite app_empty_r.
    - cbn [fold_left]. rewrite IH, filter_cons.
      case_bool_decide as Hb.
      + rewrite decide_True by done. rewrite fmap_cons. cbn [Str.concat].
        by rewrite app_assoc_str.
      + by rewrite decide_False by done. }
  unfold text_content_of. rewrite Hloop, app_empty_l. split; [done|].
  intros Hnone. induction Hnone as [|b blocks Hb Hall IH]; [done|].
  rewrite filter_cons, decide_False by done. exact IH.
Qed.

(** ** The state file *)

(** X9.  Loading from a path that is a directory, or from a file that
    the decoder rejects, raises to the caller and leaves the
    conversation state as it was. *)
Theorem load_conversation_state_propagates
    (json_load : string → exn + state) (filename : string) (w : world)
    (e : exn) :
  (fs w !! filename = Some Dir ∧ e = IsADirectoryError filename)
  ∨ (∃ data msg, fs w !! filename = Some (File data)
                 ∧ json_load data = inl (JSONDecodeError msg)
                 ∧ e = JSONDecodeError msg) →
  load_conversation_state json_load filename w = (inl e, w).
Proof.
  unfold load_conversation_state, try_except, open_read, get_fs, raise,
    mbind, M_bind, mret, M_ret.
  intros [[-> ->]|(data & msg & -> & Hj & ->)]; [done|].
  by rewrite Hj.
Qed.

Lemma load_conversation_state_propagates_witness :
  load_conversation_state (λ _, inl (JSONDecodeError "Expecting value"))
    "state.json"
    (World (empty_state "t0") [] (<["state.json" := File "oops"]> ∅))
  = (inl (JSONDecodeError "Expecting value"),
     World (empty_state "t0") [] (<["state.json" := File "oops"]> ∅)).
Proof.
  apply load_conversation_state_propagates. right.
  exists "oops", "Expecting value". by repeat split.
Defined.

(** X10.  Saving and loading round-trip.  On a disk in normal form,
    for a path in normal form that is not a directory, lies in a
    directory that exists and is not refused, and for a decoder that
    reads back what the encoder wrote for this state,
    [save_conversation_state] writes the file without changing the
    state, and a later [load_conversation_state] of that file, whatever
    the state has become, puts back the whole saved state. *)
Theorem save_load_round_trip (refuses : os_refusal)
    (json_dump : state → string) (json_load : string → exn + state)
    (filename : string) (w : world) :
  let saved := Str.universal_newlines (json_dump (conversation_state w)) in
  disk_ok (fs w) →
  relative_path filename = true →
  fs w !! filename ≠ Some Dir →
  parent_node (fs w) filename = Some Dir →
  refuses filename = None →
  json_load saved = inr (conversation_state w) →
  ∃ w1,
    save_conversation_state refuses json_dump filename w = (inr (), w1)
    ∧ conversation_state w1 = conversation_state w
    ∧ fs w1 = <[filename := File saved]> (fs w)
    ∧ ∀ w2, fs w2 = fs w1 →
        ∃ w3, load_conversation_state json_load filename w2 = (inr (), w3)
              ∧ conversation_state w3 = conversation_state w
              ∧ fs w3 = fs w2.
Proof.
  intros saved _ Hrel Hdir Hpar Href Hcodec.
  pose proof (relative_path_no_nul _ Hrel) as Hnul.
  apply relative_path_shape in Hrel as [Hne _].
  destruct w as [st out d]. cbn [fs conversation_state] in *.
  eexists. split.
  { unfold save_conversation_state, get_state.
    unfold mbind at 1, M_bind at 1. cbn [conversation_state].
    unfold mbind at 1, M_bind at 1.
    rewrite open_write_ok by done. reflexivity. }
  cbn [print fs conversation_state]. split; [done|]. split; [done|].
  intros w2 Hfs. eexists. split.
  { unfold load_conversation_state, try_except, open_read, get_fs, put_state,
      print, mbind, M_bind, mret, M_ret.
    rewrite Hfs, lookup_insert_eq. fold saved. rewrite Hcodec. reflexivity. }
  by cbn.
Qed.

Lemma save_load_round_trip_witness :
  let st :=
    {| messages := [ {| role := "user"; content := "Hi" |};
                     {| role := "assistant"; content := "Hello." |} ];
       summary := "greeting"; shared_files := ["a.py"];
       last_updated := "t0" |} in
  let json_load : string → exn + state := λ data,
    if bool_decide (data = "{saved}") then inr st
    else inl (JSONDecodeError "Expecting value") in
  ∃ w1 w3,
    save_conversation_state (λ _, None) (λ _, "{saved}") "state.json"
      (World st [] ∅)
    = (inr (), w1)
    ∧ load_conversation_state json_load "state.json"
        (World (empty_state "t9") [] (fs w1)) = (inr (), w3)
    ∧ conversation_state w3 = st.
Proof.
  intros st json_load.
  destruct (save_load_round_trip (λ _, None) (λ _, "{saved}") json_load
              "state.json" (World st [] ∅))
    as (w1 & Hsave & _ & _ & Hload).
  - intros path [n Hn]. cbn [fs] in Hn. by rewrite lookup_empty in Hn.
  - reflexivity.
  - cbn [fs]. by rewrite lookup_empty.
  - reflexivity.
  - reflexivity.
  - reflexivity.
  - destruct (Hload (World (empty_state "t9") [] (fs w1)) eq_refl)
      as (w3 & Hrun & Hst & _).
    exists w1, w3. by repeat split.
Defined.

(** Where the file cannot be made the call raises, prints nothing and
    writes nothing: the directory of the path is missing, or the path
    is empty. *)
Example save_conversation_state_no_directory :
  let w := World (empty_state "t0") [] ∅ in
  save_conversation_state (λ _, None) (λ _, "{}") "nodir/state.json" w
  = (inl (FileNotFoundError "nodir/state.json"), w)
  ∧ save_conversation_state (λ _, None) (λ _, "{}") EmptyString w
    = (inl (FileNotFoundError EmptyString), w).
Proof. vm_compute. by split. Qed.

(** * Further properties of [extract_markdown] *)

Lemma split_at_fence_prefix (s g rest : string) :
  split_at_fence s = Some (g, rest) → ∃ r, s = g +:+ r.
Proof.
  revert g. induction s as [|c s IH]; intros g.
  - cbn. discriminate.
  - cbn [split_at_fence]. destruct (Str.startswith (String c s) FENCE).
    + intros [= <- _]. by exists (String c s).
    + destruct (split_at_fence s) as [[g' rest']|]; [|done].
      intros [= <- <-]. destruct (IH _ eq_refl) as [r ->]. by exists r.
Qed.

Lemma startswith_app (s p r : string) :
  Str.startswith s p = true → Str.startswith (s +:+ r) p = true.
Proof.
  intros [t ->]%startswith_spec. apply startswith_spec.
  exists (t +:+ r). by rewrite app_assoc_str.
Qed.

Lemma contains_cons (c : ascii) (s t : string) :
  Str.contains (String c s) t
  = Str.startswith (String c s) t || Str.contains s t.
Proof. reflexivity. Qed.

(** The group of a fenced block holds no fence. *)
Lemma split_at_fence_no_fence (s g rest : string) :
  split_at_fence s = Some (g, rest) → Str.contains g FENCE = false.
Proof.
  revert g. induction s as [|c s IH]; intros g.
  - cbn. discriminate.
  - cbn [split_at_fence].
    destruct (Str.startswith (String c s) FENCE) eqn:Hf.
    + by intros [= <- _].
    + destruct (split_at_fence s) as [[g' rest']|] eqn:Hs; [|done].
      intros [= <- <-]. rewrite contains_cons, (IH _ eq_refl), orb_false_r.
      destruct (Str.startswith (String c g') FENCE) eqn:Hg; [|done].
      destruct (split_at_fence_prefix _ _ _ Hs) as [r ->].
      apply (startswith_app _ _ r) in Hg. rewrite app_cons in Hg. congruence.
Qed.

Lemma findall_code_go_no_fence (fuel : nat) (s : string) :
  Forall (λ g, Str.contains g FENCE = false) (findall_code_go fuel s).
Proof.
  revert s. induction fuel as [|fuel IH]; intros s; [constructor|].
  cbn [findall_code_go].
  destruct (match_code_at s) as [[g rest]|] eqn:Hm.
  - constructor; [|apply IH]. unfold match_code_at in Hm.
    destruct (Str.startswith s FENCE); [|done].
    by eapply split_at_fence_no_fence.
  - destruct s; [constructor|apply IH].
Qed.

Lemma not_contains_substr (s t u : string) :
  Str.contains s u = false → Str.substr t s → Str.contains t u = false.
Proof.
  intros Hs Hts. destruct (Str.contains t u) eqn:Ht; [|done].
  apply contains_spec in Ht.
  pose proof (substr_trans _ _ _ Ht Hts) as Hus%contains_spec. congruence.
Qed.

(** X11.  The content of a fenced-block artifact is trimmed and holds
    no fence. *)
Theorem code_artifacts_content (response_text : string) :
  Forall (λ a, trimmed (a_content a)
               ∧ Str.contains (a_content a) FENCE = false)
    (code_artifacts response_text).
Proof.
  unfold code_artifacts, findall_code.
  pose proof (findall_code_go_no_fence
                (S (String.length response_text)) response_text) as Hall.
  rewrite <-(enumerate_snd (findall_code_go _ _)) in Hall.
  apply Forall_fmap in Hall. apply Forall_fmap.
  eapply Forall_impl; [exact Hall|]. intros [i g] Hg. cbn in *.
  split; [apply strip_trimmed|].
  eapply not_contains_substr; [exact Hg|apply strip_substr].
Qed.

Lemma trimmed_FENCE : trimmed FENCE.
Proof. by split. Qed.

(** X12.  A heading section whose body holds a fence is never dropped:
    its artifact is in the output whatever the fenced blocks are.  This
    is the case of the last heading inside a fenced document, whose body
    runs over the closing fence. *)
Theorem section_with_fence_kept (response_text : string)
    (ihc : nat * (string * string)) :
  ihc ∈ heading_matches response_text →
  Str.contains ihc.2.2 FENCE = true →
  section_artifact ihc ∈ extract_markdown response_text.
Proof.
  intros Hin Hfence. rewrite extract_markdown_eq.
  apply elem_of_app. right. apply list_elem_of_fmap. exists ihc.
  split; [done|]. apply list_elem_of_In, List.filter_In.
  split; [by apply list_elem_of_In|]. apply negb_true_iff.
  unfold body_in_code_artifact.
  destruct (existsb _ _) eqn:Hex; [|done]. exfalso.
  apply existsb_exists in Hex as (a & Ha & Hc).
  apply list_elem_of_In in Ha. apply contains_spec in Hc.
  pose proof (code_artifacts_content response_text) as Hall.
  rewrite Forall_forall in Hall. destruct (Hall a Ha) as [_ Hno].
  apply contains_spec in Hfence.
  apply (substr_strip _ _ trimmed_FENCE) in Hfence.
  pose proof (substr_trans _ _ _ Hfence Hc) as Hbad%contains_spec.
  congruence.
Qed.

Lemma section_with_fence_kept_witness :
  let text :=
    "```markdown" +:+ LF +:+ "# Title" +:+ LF +:+ "body" +:+ LF +:+ "```" in
  section_artifact (0, ("Title", "body" +:+ LF +:+ "```"))
  ∈ extract_markdown text.
Proof.
  intros text.
  apply (section_with_fence_kept text (0, ("Title", "body" +:+ LF +:+ "```"))).
  - vm_compute. left.
  - reflexivity.
Defined.

Lemma no_fence_no_code (fuel : nat) (s : string) :
  Str.contains s FENCE = false → findall_code_go fuel s = [].
Proof.
  revert s. induction fuel as [|fuel IH]; intros s Hs; [done|].
  cbn [findall_code_go]. unfold match_code_at.
  destruct s as [|c s].
  - by destruct (Str.startswith EmptyString FENCE).
  - rewrite contains_cons in Hs. apply orb_false_iff in Hs as [-> Hs].
    by apply IH.
Qed.

Lemma no_heading_no_section (fuel : nat) (at_start : bool) (s : string) :
  Str.contains s "# " = false → findall_heading_go fuel at_start s = [].
Proof.
  assert (∀ s, Str.contains s "# " = false →
               Str.startswith s "# " = false
               ∧ Str.startswith s (LF +:+ "# ") = false) as Hno.
  { intros t Ht. split.
    - destruct (Str.startswith t "# ") eqn:Hst; [|done].
      apply startswith_spec in Hst as [r ->].
      assert (Str.contains ("# " +:+ r) "# " = true) as Hc; [|congruence].
      apply contains_spec. by exists EmptyString, r.
    - destruct (Str.startswith t (LF +:+ "# ")) eqn:Hst; [|done].
      apply startswith_spec in Hst as [r ->].
      assert (Str.contains ((LF +:+ "# ") +:+ r) "# " = true) as Hc;
        [|congruence].
      apply contains_spec. by exists LF, r. }
  revert at_start s.
  induction fuel as [|fuel IH]; intros at_start s Hs; [done|].
  cbn [findall_heading_go]. unfold match_heading_at.
  destruct (Hno s Hs) as [-> ->]. rewrite andb_false_r.
  destruct s as [|c s]; [done|].
  rewrite contains_cons in Hs. apply orb_false_iff in Hs as [_ Hs].
  by apply IH.
Qed.

(** X13.  A text without a fence gives no fenced-block artifact, and a
    text in which no [#] is followed by a space gives no section; a text
    with neither gives no artifact at all. *)
Theorem extract_markdown_plain_text (response_text : string) :
  (Str.contains response_text FENCE = false →
   code_artifacts response_text = [])
  ∧ (Str.contains response_text "# " = false →
     heading_matches response_text = [])
  ∧ (Str.contains response_text FENCE = false →
     Str.contains response_text "# " = false →
     extract_markdown response_text = []).
Proof.
  assert (Str.contains response_text FENCE = false →
          code_artifacts response_text = []) as Hcode.
  { intros Hf. unfold code_artifacts, findall_code.
    by rewrite no_fence_no_code. }
  assert (Str.contains response_text "# " = false →
          heading_matches response_text = []) as Hhead.
  { intros Hh. unfold heading_matches, findall_heading.
    by rewrite no_heading_no_section. }
  split; [done|]. split; [done|]. intros Hf Hh.
  rewrite extract_markdown_eq, Hcode, Hhead by done. done.
Qed.

Lemma extract_markdown_plain_text_witness :
  extract_markdown "Nothing to extract here." = [].
Proof.
  apply (proj2 (proj2 (extract_markdown_plain_text
                         "Nothing to extract here."))); reflexivity.
Defined.

Lemma take_line_no_lf (s l r : string) :
  take_line s = (l, r) → Str.contains l LF = false.
Proof.
  revert l. induction s as [|c s IH]; intros l; simpl.
  - by intros [= <- _].
  - case_bool_decide as Hc; [by intros [= <- _]|].
    destruct (take_line s) as [l' r']. intros [= <- <-].
    rewrite contains_cons, (IH _ eq_refl), orb_false_r.
    unfold LF. rewrite startswith_cons_char.
    by apply bool_decide_eq_false_2.
Qed.

Lemma match_heading_at_no_lf (at_start : bool) (s h b rest : string) :
  match_heading_at at_start s = Some (h, b, rest) →
  Str.contains h LF = false.
Proof.
  unfold match_heading_at.
  destruct (if at_start && Str.startswith s "# " then Some (Str.drop 2 s)
            else if Str.startswith s (LF +:+ "# ") then Some (Str.drop 3 s)
                 else None) as [a|]; [|done].
  destruct (take_line a) as [l r] eqn:Hl. apply take_line_no_lf in Hl.
  destruct r as [|c r]; [by intros [= <- _ _]|].
  destruct (scan_body r). by intros [= <- _ _].
Qed.

Lemma findall_heading_go_no_lf (fuel : nat) (at_start : bool) (s : string) :
  Forall (λ hb, Str.contains hb.1 LF = false)
    (findall_heading_go fuel at_start s).
Proof.
  revert at_start s. induction fuel as [|fuel IH]; intros at_start s;
    [constructor|].
  cbn [findall_heading_go].
  destruct (match_heading_at at_start s) as [[[h b] rest]|] eqn:Hm.
  - constructor; [|apply IH]. by eapply match_heading_at_no_lf.
  - destruct s; [constructor|apply IH].
Qed.

Lemma enumerate_from_fst {A} (i : nat) (l : list A) :
  (enumerate_from i l).*1 = seq i (length l).
Proof.
  revert i. induction l as [|x l IH]; intros i; simpl; [done|].
  by rewrite IH.
Qed.

Lemma StronglySorted_seq (i n : nat) : StronglySorted lt (seq i n).
Proof.
  revert i. induction n as [|n IH]; intros i; simpl; constructor; [done|].
  apply Forall_forall. intros j Hj%elem_of_seq. lia.
Qed.

Lemma filter_fst_sorted {A} (keep : nat * A → bool) (l : list (nat * A)) :
  StronglySorted lt l.*1 → StronglySorted lt (List.filter keep l).*1.
Proof.
  induction l as [|[i x] l IH]; [done|].
  rewrite fmap_cons. intros [Hs Hall]%StronglySorted_inv.
  cbn [List.filter]. destruct (keep (i, x)); [|by apply IH].
  rewrite fmap_cons. constructor; [by apply IH|].
  apply Forall_forall. intros j [[j' y] [-> Hj]]%list_elem_of_fmap.
  apply list_elem_of_In, List.filter_In in Hj as [Hj _].
  rewrite Forall_forall in Hall. apply Hall.
  apply list_elem_of_fmap. exists (j', y). split; [done|].
  by apply list_elem_of_In.
Qed.

(** X14.  The output of [extract_markdown] is every fenced block, in the
    order found and numbered from 0 without a gap, followed by the
    sections that were kept, with strictly increasing numbers (the
    number of a section is its place among all heading matches, dropped
    ones included).  A fenced-block artifact has no heading; a section
    artifact has a trimmed heading without a line feed and the content
    [# <heading>], a blank line, then the trimmed body. *)
Theorem extract_markdown_shape (response_text : string) :
  ∃ blocks sections,
    extract_markdown response_text = blocks ++ sections
    ∧ blocks = code_artifacts response_text
    ∧ a_index <$> blocks = seq 0 (length blocks)
    ∧ Forall (λ a, a_type a = "markdown_code_block" ∧ a_heading a = None)
        blocks
    ∧ StronglySorted lt (a_index <$> sections)
    ∧ Forall
        (λ a, a_type a = "markdown_section"
              ∧ ∃ heading body,
                  a_heading a = Some heading
                  ∧ trimmed heading
                  ∧ Str.contains heading LF = false
                  ∧ trimmed body
                  ∧ a_content a = "# " +:+ heading +:+ LF +:+ LF +:+ body)
        sections.
Proof.
  eexists _, _. split; [apply extract_markdown_eq|]. split; [done|].
  split; [|split; [|split]].
  - unfold code_artifacts, enumerate.
    rewrite <-list_fmap_compose, length_fmap.
    rewrite <-(length_fmap fst), enumerate_from_fst, length_seq.
    apply enumerate_from_fst.
  - unfold code_artifacts. apply Forall_fmap, Forall_forall. by intros.
  - rewrite <-list_fmap_compose.
    apply (filter_fst_sorted _ (heading_matches response_text)).
    unfold heading_matches, enumerate. rewrite enumerate_from_fst.
    apply StronglySorted_seq.
  - apply Forall_fmap, Forall_forall. intros [i [h b]] Hin.
    apply list_elem_of_In, List.filter_In in Hin as [Hin _].
    apply list_elem_of_In in Hin. cbn. split; [done|].
    exists (Str.strip h), (Str.strip b).
    split; [done|]. split; [apply strip_trimmed|].
    split; [|split; [apply strip_trimmed|done]].
    eapply not_contains_substr; [|apply strip_substr].
    pose proof (findall_heading_go_no_lf
                  (S (String.length response_text)) true response_text)
      as Hall.
    rewrite Forall_forall in Hall.
    apply (Hall (h, b)). unfold heading_matches in Hin.
    apply enumerate_lookup in Hin. by eapply list_elem_of_lookup_2.
Qed.

(** * Further properties of [save_artifact] *)

Lemma heading_char_ascii (c : ascii) :
  is_ascii c = true →
  name_char
    (Str.lower_char
       ((λ c, if decide (c = " "%char) then "_"%char else c)
          (clean_char c))) = true.
Proof. destruct c as [[] [] [] [] [] [] [] []]; vm_compute; done. Qed.

(** X15.  The file name made from a heading of ASCII characters
    consists of lower-case letters from a to z, digits, hyphens and
    underscores only, so it holds no path separator, no space and no
    full stop, and it has one character for each character of the
    heading. *)
Theorem heading_filename_alphabet (heading : string) :
  Forall (λ c, is_ascii c = true) (String.list_ascii_of_string heading) →
  Forall (λ c, name_char c = true)
    (String.list_ascii_of_string (heading_filename heading))
  ∧ String.length (heading_filename heading) = String.length heading.
Proof.
  intros Hascii. unfold heading_filename, Str.lower, Str.replace_char.
  split; [|by rewrite !map_chars_length].
  induction heading as [|c h IH]; [constructor|].
  cbn [Str.map_chars String.list_ascii_of_string] in *.
  apply Forall_cons in Hascii as [Hc Hascii].
  constructor; [by apply heading_char_ascii|by apply IH].
Qed.

Lemma heading_filename_alphabet_witness :
  heading_filename "My Plan: v2.0" = "my_plan__v2_0"
  ∧ Forall (λ c, name_char c = true)
      (String.list_ascii_of_string (heading_filename "My Plan: v2.0"))
  ∧ String.length (heading_filename "My Plan: v2.0") = 13.
Proof.
  split; [reflexivity|].
  apply (heading_filename_alphabet "My Plan: v2.0").
  repeat constructor.
Defined.

(** X16.  On a disk in normal form and a system that refuses no path,
    [save_artifact] into a folder that is a directory or can be created
    returns, and it writes a new file: the path it returns is in the
    folder, ends in [.md], was not on disk, and holds the content
    afterwards; the folder is a directory afterwards; every path that
    was on disk keeps what it held, and besides the new file only
    paths no longer than the folder's (the folder and the directories
    above it) can be new; nothing but the disk changes. *)
Theorem save_artifact_new_file (refuses : os_refusal) (art : artifact)
    (folder : string) (w : world) :
  permissive refuses →
  disk_ok (fs w) →
  usable_folder (fs w) folder →
  ∃ path w',
    save_artifact refuses art folder w = (inr path, w')
    ∧ has_md_extension path
    ∧ parent_path path = folder
    ∧ fs w !! path = None
    ∧ fs w' !! path = Some (File (Str.universal_newlines (a_content art)))
    ∧ fs w' !! folder = Some Dir
    ∧ (∀ p, is_Some (fs w !! p) → fs w' !! p = fs w !! p)
    ∧ (∀ p, p ≠ path → String.length folder < String.length p →
            fs w' !! p = fs w !! p)
    ∧ conversation_state w' = conversation_state w
    ∧ stdout w' = stdout w.
Proof.
  intros Hperm _ Huse.
  pose proof (filename_of_relative art) as Hrel.
  destruct (save_artifact_spec refuses art folder w Hperm Huse)
    as (k & w' & Hrun & Hnone & _ & Hnew & Hdir & Hold & Hlong & Hst & Hout).
  exists (candidate folder (filename_of art) k), w'.
  split; [done|]. split; [by apply candidate_md|].
  split; [|done].
  apply candidate_parent, Huse.
Qed.

Lemma save_artifact_new_file_witness :
  let art :=
    {| a_type := "markdown_section"; a_heading := Some "Plan";
       a_content := "# Plan"; a_index := 0 |} in
  ∃ path w',
    save_artifact (λ _, None) art "extracted_artifacts"
      (World (empty_state "t0") [] ∅) = (inr path, w')
    ∧ parent_path path = "extracted_artifacts"
    ∧ fs w' !! path = Some (File "# Plan")
    ∧ fs w' !! "extracted_artifacts" = Some Dir.
Proof.
  intros art.
  destruct (save_artifact_new_file (λ _, None) art "extracted_artifacts"
              (World (empty_state "t0") [] ∅))
    as (path & w' & Hrun & _ & Hpar & _ & Hnew & Hdir & _).
  - intros p. reflexivity.
  - intros p [n Hn]. cbn [fs] in Hn. by rewrite lookup_empty in Hn.
  - split; [reflexivity|]. right. by apply creatable_in.
  - exists path, w'. by repeat split.
Defined.

(** * Further properties of the search *)

Lemma scan_artifacts_take (term : string) (limit : Z) (conv_id : string)
    (docs : list (string * gmap string value))
    (results : list (gmap string value)) (reads : list read)
    (flag : bool) (results' : list (gmap string value))
    (reads' : list read) :
  length results < Z.to_nat limit →
  scan_artifacts term limit conv_id docs results reads
  = inr (flag, results', reads') →
  results'
  = results
    ++ take (Z.to_nat limit - length results) (matches_in term conv_id docs)
  ∧ if flag then length results' = Z.to_nat limit
    else length results' < Z.to_nat limit.
Proof.
  revert results reads.
  induction docs as [|[art_id doc] docs IH]; intros results reads Hlt Hrun.
  - injection Hrun as <- <- <-. cbn. by rewrite take_nil, app_nil_r.
  - cbn [scan_artifacts] in Hrun. unfold matches_in.
    cbn [List.filter snd]. unfold doc_matches at 1.
    rewrite lookup_insert_ne in Hrun by done.
    destruct (doc !! "content") as [[text| | |b]|] eqn:Hc; [|done|done|done|].
    + destruct (Str.contains (Str.lower text) term) eqn:Hm.
      * fold (tagged conv_id art_id doc) in Hrun.
        rewrite fmap_cons. cbn [fst snd].
        fold (matches_in term conv_id docs).
        case_bool_decide as Hlim.
        -- injection Hrun as <- <- <-. rewrite length_app in Hlim |- *.
           cbn [length] in Hlim |- *.
           replace (Z.to_nat limit - length results) with 1 by lia.
           cbn. rewrite take_0. split; [done|lia].
        -- rewrite length_app in Hlim. cbn [length] in Hlim.
           assert (length (results ++ [tagged conv_id art_id doc])
                   < Z.to_nat limit) as Hlt1
             by (rewrite length_app; cbn [length]; lia).
           destruct (IH _ _ Hlt1 Hrun) as [-> Hflag].
           split; [|done]. rewrite length_app. cbn [length].
           replace (Z.to_nat limit - length results)
             with (S (Z.to_nat limit - (length results + 1))) by lia.
           cbn [take]. by rewrite <-app_assoc.
      * by eapply IH.
    + by eapply IH.
Qed.

Lemma scan_conversations_take (term : string) (limit : Z)
    (convs : collection) (results : list (gmap string value))
    (reads : list read) (results' : list (gmap string value))
    (reads' : list read) :
  length results < Z.to_nat limit →
  scan_conversations term limit convs results reads = inr (results', reads') →
  results'
  = results ++ take (Z.to_nat limit - length results) (all_matches term convs).
Proof.
  revert results reads.
  induction convs as [|[conv_id docs] convs IH]; intros results reads Hlt Hrun.
  - injection Hrun as <- <-. cbn. by rewrite take_nil, app_nil_r.
  - cbn [scan_conversations all_matches] in Hrun |- *.
    destruct (scan_artifacts term limit conv_id docs results
                (reads ++ [ReadConversation conv_id]))
      as [e|[[flag results1] reads1]] eqn:Hin; [done|].
    apply scan_artifacts_take in Hin as [Hr1 Hflag]; [|done].
    assert (length results1
            = length results
              + length (take (Z.to_nat limit - length results)
                          (matches_in term conv_id docs))) as Hlen
      by (by rewrite Hr1, length_app).
    rewrite length_take in Hlen.
    destruct flag.
    + injection Hrun as <- <-. rewrite Hr1. f_equal.
      rewrite take_app_le by lia. done.
    + assert (take (Z.to_nat limit - length results)
                (matches_in term conv_id docs)
              = matches_in term conv_id docs) as Hall
        by (apply take_ge; lia).
      rewrite Hall in Hr1. rewrite (IH _ _ Hflag Hrun), Hr1, <-app_assoc.
      f_equal. rewrite take_app_ge by lia. f_equal. f_equal.
      rewrite length_app. lia.
Qed.

(** X17.  For a limit of at least one, a search that returns gives the
    first [limit] matching documents of the store in the order of the
    scan, none skipped: a document matches when it has a text [content]
    that holds the term without regard to case (a document without
    [content] does not match), and each record is the document with
    [id] set to its id and [conversation_id] to that of its
    conversation, over any field of those names it had. *)
Theorem search_artifacts_by_content_first_matches (store : collection)
    (search_term : string) (limit : Z) (results : list (gmap string value))
    (reads : list read) :
  (1 ≤ limit)%Z →
  search_artifacts_by_content store search_term limit = inr (results, reads) →
  results
  = take (Z.to_nat limit) (all_matches (Str.lower search_term) store).
Proof.
  intros Hlim Hrun. unfold search_artifacts_by_content in Hrun.
  apply scan_conversations_take in Hrun; [|cbn; lia].
  by rewrite Hrun, app_nil_l, Nat.sub_0_r.
Qed.

Lemma search_artifacts_by_content_first_matches_witness :
  let doc text : gmap string value := <["content" := VStr text]> ∅ in
  let store : collection :=
    [ ("c1", [("a1", doc "Foo one"); ("a2", <["index" := VInt 1]> ∅)]);
      ("c2", [("b1", doc "bar"); ("b2", doc "a FOO two")]) ] in
  search_artifacts_by_content store "fOO" 5
  = inr ([ tagged "c1" "a1" (doc "Foo one");
           tagged "c2" "b2" (doc "a FOO two") ],
         full_scan store).
Proof.
  intros doc store.
  assert (∃ results reads,
            search_artifacts_by_content store "fOO" 5 = inr (results, reads)
            ∧ reads = full_scan store) as (results & reads & Hrun & ->).
  { eexists _, _. split; [vm_compute; reflexivity|]. vm_compute. reflexivity. }
  rewrite Hrun. f_equal. f_equal.
  rewrite (search_artifacts_by_content_first_matches store "fOO" 5 results
             (full_scan store) ltac:(lia) Hrun).
  vm_compute. reflexivity.
Defined.

Lemma scan_artifacts_total (term : string) (limit : Z) (conv_id : string)
    (docs : list (string * gmap string value))
    (results : list (gmap string value)) (reads : list read) :
  Forall (λ d, content_is_text d.2) docs →
  ∃ out, scan_artifacts term limit conv_id docs results reads = inr out.
Proof.
  intros Hall. revert results reads.
  induction Hall as [|[art_id doc] docs Hdoc Hall IH]; intros results reads.
  - by eexists.
  - cbn [scan_artifacts]. rewrite lookup_insert_ne by done.
    unfold content_is_text in Hdoc. cbn in Hdoc.
    destruct (doc !! "content") as [[text| | |b]|]; [|done|done|done|apply IH].
    destruct (Str.contains (Str.lower text) term); [|apply IH].
    case_bool_decide; [by eexists|apply IH].
Qed.

(** X18.  The search never raises on a store in which the [content] of
    every artifact document, where present, is text. *)
Theorem search_artifacts_by_content_total (store : collection)
    (search_term : string) (limit : Z) :
  Forall (λ conv, Forall (λ d, content_is_text d.2) conv.2) store →
  ∃ results reads,
    search_artifacts_by_content store search_term limit
    = inr (results, reads).
Proof.
  intros Hall. unfold search_artifacts_by_content.
  generalize (@nil (gmap string value)) (@nil read).
  induction Hall as [|[conv_id docs] convs Hdocs Hall IH];
    intros results reads.
  - by eexists _, _.
  - cbn [scan_conversations].
    destruct (scan_artifacts_total (Str.lower search_term) limit conv_id docs
                results (reads ++ [ReadConversation conv_id]) Hdocs)
      as [[[flag results1] reads1] ->].
    destruct flag; [by eexists _, _|apply IH].
Qed.

Lemma search_artifacts_by_content_total_witness :
  let store : collection :=
    [ ("c1", [("a1", <["content" := VStr "Foo"]> ∅); ("a2", ∅)]) ] in
  ∃ results reads,
    search_artifacts_by_content store "x" 10 = inr (results, reads).
Proof.
  intros store. apply search_artifacts_by_content_total.
  repeat constructor.
Defined.

Lemma lower_char_idem (c : ascii) :
  Str.lower_char (Str.lower_char c) = Str.lower_char c.
Proof. destruct c as [[] [] [] [] [] [] [] []]; reflexivity. Qed.

Lemma lower_idem (s : string) : Str.lower (Str.lower s) = Str.lower s.
Proof.
  unfold Str.lower. induction s as [|c s IH]; simpl; [done|].
  by rewrite lower_char_idem, IH.
Qed.

(** X19.  The search does not depend on the case of the term: a term
    and its lower-cased form give the same records and the same reads,
    and the same exception if any. *)
Theorem search_artifacts_by_content_term_case (store : collection)
    (search_term : string) (limit : Z) :
  search_artifacts_by_content store (Str.lower search_term) limit
  = search_artifacts_by_content store search_term limit.
Proof. unfold search_artifacts_by_content. by rewrite lower_idem. Qed.



(** * Properties of the store *)

(** X21.  A conversation that was saved is read back under the
    identifier returned, with the prompt, the response and the message
    id given and the time of the server; every other conversation and
    every artifact is as before.  A conversation already stored under
    that identifier is replaced. *)
Theorem save_conversation_get_conversation {R : Type}
    (conversation_id : string) (server_time : Z) (prompt : string)
    (response : R) (anthropic_message_id : option string)
    (db : firestore R) :
  let '(db', returned) :=
    save_conversation conversation_id server_time prompt response
      anthropic_message_id db in
  returned = conversation_id
  ∧ get_conversation returned db'
    = Some {| conv_created_at := server_time; conv_prompt := prompt;
              conv_response := response;
              conv_anthropic_message_id := anthropic_message_id |}
  ∧ (∀ other, other ≠ conversation_id →
       get_conversation other db' = get_conversation other db)
  ∧ artifacts db' = artifacts db.
Proof.
  cbn. unfold get_conversation. cbn. split; [done|].
  split; [apply lookup_insert_eq|]. split; [|done].
  intros other Hne. by rewrite lookup_insert_ne.
Qed.

Lemma save_artifacts_from_spec {R : Type} (uuid : nat → string)
    (server_time : nat → Z) (conversation_id : string)
    (arts : list (gmap string value)) (i : nat) (db : firestore R)
    (acc : list string) :
  let out :=
    save_artifacts_from uuid server_time conversation_id i arts db acc in
  out.2 = acc ++ (uuid <$> seq i (length arts))
  ∧ conversations out.1 = conversations db
  ∧ (∀ c, c ≠ conversation_id → artifacts_ref out.1 c = artifacts_ref db c)
  ∧ (∀ a, a ∉ uuid <$> seq i (length arts) →
       artifacts_ref out.1 conversation_id !! a
       = artifacts_ref db conversation_id !! a)
  ∧ (NoDup (uuid <$> seq i (length arts)) →
     ∀ k art, arts !! k = Some art →
       artifacts_ref out.1 conversation_id !! uuid (i + k)
       = Some (<["created_at" := VInt (server_time (i + k))]> art)).
Proof.
  revert i db acc. induction arts as [|art arts IH]; intros i db acc.
  { cbn. rewrite app_nil_r. by repeat split. }
  cbn [save_artifacts_from length seq]. rewrite fmap_cons.
  set (db1 := {| conversations := conversations db;
                 artifacts := <[conversation_id := _]> (artifacts db) |}).
  assert (artifacts_ref db1 conversation_id
          = <[uuid i := <["created_at" := VInt (server_time i)]> art]>
              (artifacts_ref db conversation_id)) as Hsame.
  { unfold artifacts_ref at 1. cbn. by rewrite lookup_insert_eq. }
  assert (∀ c, c ≠ conversation_id →
               artifacts_ref db1 c = artifacts_ref db c) as Hother.
  { intros c Hc. unfold artifacts_ref. cbn. by rewrite lookup_insert_ne. }
  destruct (IH (S i) db1 (acc ++ [uuid i]))
    as (Hids & Hconv & Hc & Hfar & Hnew).
  cbn zeta. split; [by rewrite Hids, <-app_assoc|].
  split; [by rewrite Hconv|].
  split; [intros c Hne; by rewrite Hc, Hother|].
  split.
  { intros a [Hne Hnot]%not_elem_of_cons.
    by rewrite Hfar, Hsame, lookup_insert_ne. }
  intros [Hhead Hnd]%NoDup_cons [|k] art' Hk.
  - injection Hk as <-. rewrite Nat.add_0_r.
    by rewrite Hfar, Hsame, lookup_insert_eq.
  - replace (i + S k) with (S i + k) by lia. by apply Hnew.
Qed.

(** X22.  [save_artifacts] returns one identifier for each artifact, in
    the order of the artifacts, and leaves the conversations and the
    artifacts of other conversations alone.  When the identifiers drawn
    are pairwise different, every artifact is read back by
    [get_artifact] under its identifier, with [created_at] set to the
    time of its write and [id] to its identifier. *)
Theorem save_artifacts_get_artifact {R : Type} (uuid : nat → string)
    (server_time : nat → Z) (conversation_id : string)
    (arts : list (gmap string value)) (db : firestore R) :
  let '(db', artifact_ids) :=
    save_artifacts uuid server_time conversation_id arts db in
  artifact_ids = uuid <$> seq 0 (length arts)
  ∧ length artifact_ids = length arts
  ∧ conversations db' = conversations db
  ∧ (∀ c a, c ≠ conversation_id → get_artifact c a db' = get_artifact c a db)
  ∧ (NoDup artifact_ids →
     ∀ k art, arts !! k = Some art →
       get_artifact conversation_id (uuid k) db'
       = Some (<["id" := VStr (uuid k)]>
                 (<["created_at" := VInt (server_time k)]> art))).
Proof.
  unfold save_artifacts.
  pose proof (save_artifacts_from_spec uuid server_time conversation_id arts
                0 db []) as Hspec.
  destruct (save_artifacts_from uuid server_time conversation_id 0 arts db [])
    as [db' ids].
  cbn in Hspec. destruct Hspec as (-> & Hconv & Hc & _ & Hnew).
  split; [done|]. split; [by rewrite length_fmap, length_seq|].
  split; [done|]. split.
  { intros c a Hne. unfold get_artifact. by rewrite Hc. }
  intros Hnd k art Hk. unfold get_artifact. by rewrite (Hnew Hnd k art Hk).
Qed.

Lemma save_artifacts_get_artifact_witness :
  let uuid (i : nat) : string := "id-" +:+ pretty i in
  let arts : list (gmap string value) :=
    [ <["content" := VStr "A"]> ∅; <["content" := VStr "B"]> ∅ ] in
  let db : firestore unit := Firestore ∅ ∅ in
  get_artifact "c1" "id-1"
    (save_artifacts uuid (λ i, Z.of_nat i + 100)%Z "c1" arts db).1
  = Some (<["id" := VStr "id-1"]>
            (<["created_at" := VInt 101]> (<["content" := VStr "B"]> ∅))).
Proof.
  intros uuid arts db.
  pose proof (save_artifacts_get_artifact uuid (λ i, Z.of_nat i + 100)%Z
                "c1" arts db) as Hsave.
  destruct (save_artifacts uuid (λ i, Z.of_nat i + 100)%Z "c1" arts db)
    as [db' ids].
  destruct Hsave as (Hids & _ & _ & _ & Hget).
  apply (Hget ltac:(rewrite Hids; apply NoDup_cons; split;
                    [intros Hin%list_elem_of_singleton; discriminate
                    |apply NoDup_singleton])
           1 (<["content" := VStr "B"]> ∅) eq_refl).
Defined.

Section Stream.
Context {R : Type}.
Variable stream : ∀ A : Type, gmap string A → list (string * A).
Hypothesis stream_perm : ∀ A (m : gmap string A), stream A m ≡ₚ map_to_list m.

Lemma elem_of_stream {A} (m : gmap string A) (k : string) (x : A) :
  (k, x) ∈ stream A m ↔ m !! k = Some x.
Proof. by rewrite stream_perm, elem_of_map_to_list. Qed.

(** X23.  When a stream yields every document of a collection once,
    [get_artifacts] returns one record for each document of the
    sub-collection, and the records are those that [get_artifact]
    returns for the identifiers of the sub-collection; a conversation
    without artifacts gives the empty list. *)
Theorem get_artifacts_get_artifact (conversation_id : string)
    (db : firestore R) :
  length (get_artifacts stream conversation_id db)
  = size (artifacts_ref db conversation_id)
  ∧ (∀ r, r ∈ get_artifacts stream conversation_id db
          ↔ ∃ artifact_id,
              get_artifact conversation_id artifact_id db = Some r)
  ∧ (artifacts db !! conversation_id = None →
     get_artifacts stream conversation_id db = []).
Proof.
  unfold get_artifacts. split; [|split].
  - by rewrite length_fmap, stream_perm, length_map_to_list.
  - intros r. rewrite list_elem_of_fmap. unfold get_artifact. split.
    + intros ([a doc] & -> & Hin%elem_of_stream). exists a. cbn.
      by rewrite Hin.
    + intros [a Hget].
      destruct (artifacts_ref db conversation_id !! a) as [doc|] eqn:Hdoc;
        [|done].
      injection Hget as <-. exists (a, doc). split; [done|].
      by apply elem_of_stream.
  - intros Hnone. unfold artifacts_ref. rewrite Hnone. cbn.
    assert (stream (gmap string value) ∅ = []) as ->; [|done].
    apply Permutation_nil_r. by rewrite stream_perm, map_to_list_empty.
Qed.

Lemma scan_artifacts_sound (term : string) (limit : Z) (conv_id : string)
    (docs : list (string * gmap string value))
    (results : list (gmap string value)) (reads : list read)
    (flag : bool) (results' : list (gmap string value))
    (reads' : list read) :
  scan_artifacts term limit conv_id docs results reads
  = inr (flag, results', reads') →
  ∀ r, r ∈ results' → r ∈ results ∨ r ∈ matches_in term conv_id docs.
Proof.
  revert results reads.
  induction docs as [|[art_id doc] docs IH]; intros results reads Hrun r Hr.
  - injection Hrun as <- <- <-. by left.
  - cbn [scan_artifacts] in Hrun. unfold matches_in.
    cbn [List.filter snd]. unfold doc_matches at 1.
    rewrite lookup_insert_ne in Hrun by done.
    destruct (doc !! "content") as [[text| | |b]|] eqn:Hc; [|done|done|done|].
    + destruct (Str.contains (Str.lower text) term) eqn:Hm.
      * fold (tagged conv_id art_id doc) in Hrun.
        rewrite fmap_cons. cbn [fst snd].
        fold (matches_in term conv_id docs).
        case_bool_decide as Hlim.
        -- injection Hrun as <- <- <-.
           apply elem_of_app in Hr as [?|Hr1]; [by left|].
           apply list_elem_of_singleton in Hr1 as ->. right. by left.
        -- destruct (IH _ _ Hrun r Hr) as [Hin|Hin]; [|right; by right].
           apply elem_of_app in Hin as [?|Hr1]; [by left|].
           apply list_elem_of_singleton in Hr1 as ->. right. by left.
      * by eapply IH.
    + by eapply IH.
Qed.

Lemma scan_conversations_sound (term : string) (limit : Z)
    (convs : collection) (results : list (gmap string value))
    (reads : list read) (results' : list (gmap string value))
    (reads' : list read) :
  scan_conversations term limit convs results reads = inr (results', reads') →
  ∀ r, r ∈ results' → r ∈ results ∨ r ∈ all_matches term convs.
Proof.
  revert results reads.
  induction convs as [|[conv_id docs] convs IH]; intros results reads Hrun r Hr.
  - injection Hrun as <- <-. by left.
  - cbn [scan_conversations all_matches] in Hrun |- *.
    destruct (scan_artifacts term limit conv_id docs results
                (reads ++ [ReadConversation conv_id]))
      as [e|[[flag results1] reads1]] eqn:Hin; [done|].
    pose proof (scan_artifacts_sound _ _ _ _ _ _ _ _ _ Hin) as Hsound.
    rewrite elem_of_app. destruct flag.
    + injection Hrun as <- <-. destruct (Hsound r Hr); auto.
    + destruct (IH _ _ Hrun r Hr) as [H1|H2]; [|auto].
      destruct (Hsound r H1); auto.
Qed.

Lemma elem_of_all_matches (term : string) (convs : collection)
    (r : gmap string value) :
  r ∈ all_matches term convs →
  ∃ conv_id docs art_id doc,
    (conv_id, docs) ∈ convs ∧ (art_id, doc) ∈ docs
    ∧ doc_matches term doc = true ∧ r = tagged conv_id art_id doc.
Proof.
  induction convs as [|[conv_id docs] convs IH]; cbn [all_matches].
  - by intros ?%elem_of_nil.
  - intros [Hin|Hin]%elem_of_app.
    + unfold matches_in in Hin.
      apply list_elem_of_fmap in Hin as ([a doc] & -> & Hin).
      apply list_elem_of_In, List.filter_In in Hin as [Hin Hm].
      apply list_elem_of_In in Hin.
      exists conv_id, docs, a, doc. split; [by left|done].
    + destruct (IH Hin) as (c & ds & a & doc & Hc & ?).
      exists c, ds, a, doc. split; [by right|done].
Qed.

(** X24.  Whatever the limit, every record that a search of the store
    returns is a stored artifact document of a stored conversation that
    matches the term, with [id] and [conversation_id] set: an artifact
    saved under an identifier that has no conversation document is never
    found. *)
Theorem search_store_sound (db : firestore R) (search_term : string)
    (limit : Z) (results : list (gmap string value)) (reads : list read) :
  search_artifacts_by_content (collection_of stream db) search_term limit
  = inr (results, reads) →
  Forall
    (λ r, ∃ conv_id art_id doc,
        is_Some (conversations db !! conv_id)
        ∧ artifacts_ref db conv_id !! art_id = Some doc
        ∧ doc_matches (Str.lower search_term) doc = true
        ∧ r = tagged conv_id art_id doc)
    results.
Proof.
  intros Hrun. apply Forall_forall. intros r Hr.
  unfold search_artifacts_by_content in Hrun.
  destruct (scan_conversations_sound _ _ _ _ _ _ _ Hrun r Hr) as [Hnil|Hin].
  { by apply elem_of_nil in Hnil. }
  apply elem_of_all_matches in Hin
    as (conv_id & docs & art_id & doc & Hc & Hd & Hm & ->).
  unfold collection_of in Hc.
  apply list_elem_of_fmap in Hc as ([c cd] & [= -> ->] & Hc).
  apply elem_of_stream in Hc. apply elem_of_stream in Hd. cbn in Hd.
  exists c, art_id, doc. by repeat split; [eexists|..].
Qed.

End Stream.

Lemma search_store_sound_witness :
  let db : firestore unit :=
    {| conversations :=
         <["c1" := ConversationDoc 100 "question" () None]> ∅;
       artifacts :=
         <["c1" := <["a1" := <["content" := VStr "Foo"]> ∅]> ∅]>
           (<["orphan" := <["b1" := <["content" := VStr "foo too"]> ∅]> ∅]>
              ∅) |} in
  search_artifacts_by_content (collection_of (λ A, map_to_list) db) "foo" 10
  = inr ([tagged "c1" "a1" (<["content" := VStr "Foo"]> ∅)],
         [ReadConversation "c1"; ReadArtifact "c1" "a1"])
  ∧ Forall
      (λ r, ∃ conv_id art_id doc,
          is_Some (conversations db !! conv_id)
          ∧ artifacts_ref db conv_id !! art_id = Some doc
          ∧ doc_matches (Str.lower "foo") doc = true
          ∧ r = tagged conv_id art_id doc)
      [tagged "c1" "a1" (<["content" := VStr "Foo"]> ∅)].
Proof.
  intros db.
  assert (search_artifacts_by_content (collection_of (λ A, map_to_list) db)
            "foo" 10
          = inr ([tagged "c1" "a1" (<["content" := VStr "Foo"]> ∅)],
                 [ReadConversation "c1"; ReadArtifact "c1" "a1"])) as Hrun
    by (vm_compute; reflexivity).
  split; [exact Hrun|].
  exact (search_store_sound (λ A, map_to_list) (λ A m, reflexivity _)
           db "foo" 10 _ _ Hrun).
Defined.

Lemma get_artifacts_get_artifact_witness :
  let db : firestore unit :=
    {| conversations := ∅;
       artifacts :=
         <["c1" := <["a1" := <["content" := VStr "A"]> ∅]> ∅]> ∅ |} in
  length (get_artifacts (λ A, map_to_list) "c1" db)
  = size (artifacts_ref db "c1")
  ∧ get_artifacts (λ A, map_to_list) "c2" db = [].
Proof.
  intros db.
  destruct (get_artifacts_get_artifact (λ A, map_to_list)
              (λ A m, reflexivity _) "c1" db) as (Hlen & _ & _).
  destruct (get_artifacts_get_artifact (λ A, map_to_list)
              (λ A m, reflexivity _) "c2" db) as (_ & _ & Hnone).
  split; [exact Hlen|]. apply Hnone. reflexivity.
Defined.
